(** * Hazard Islands: population dynamics under hurricane perturbations

    A shallow embedding of the computational core of the application
    (odeSolver.ts, ecologyModel.ts, networkBuilder.ts, simulationEngine.ts,
    defaultNetwork.ts and the hurricane probabilities of Home.tsx)
    together with the properties stated about it.

    Conventions of the embedding.
    - A JavaScript [number] is an exact rational ([Qc], canonical fractions
      with Leibniz equality).  Rounding, infinities and NaN are outside the
      model; division by zero is [Qc]'s total division.
    - Where rounding decides what the code does, whether the loop of
      [solveODE] ends and where it ends, the integrator is embedded a
      second time over binary64 numbers, the kernel's primitive floats
      ([Ode64]).
    - [a[i]] on a number array is [read a i]; JavaScript yields [undefined]
      out of range, the model yields [0].  Statements that depend on such a
      read carry the dimension hypothesis that keeps it in range.
    - [Math.random()] is an explicit stream of draws, [Math.log] and
      [Math.sqrt] are parameters of the sections that use them.
    - A [while] loop is a fuelled recursion; [None] is a loop that does not
      terminate. *)

From Stdlib Require Import QArith Qcanon Qround Lqa Lia.
From Stdlib Require Import Floats.PrimFloat.
From stdpp Require Import base numbers list gmap strings.

Open Scope Qc_scope.

(** ** Numbers *)

Definition num (z : Z) : Qc := Qc_of_Z z.

Definition six : Qc := num 6.

(** [Math.min(a, b)] and [Math.max(a, b)]. *)
Definition Math_min (a b : Qc) : Qc := if bool_decide (b < a) then b else a.
Definition Math_max (a b : Qc) : Qc := if bool_decide (a < b) then b else a.

(** [a[i]] for a number array. *)
Definition read (a : list Qc) (i : nat) : Qc := default 0 (a !! i).

(** Injection of a loop counter. *)
Definition of_nat (n : nat) : Qc := Qc_of_Z (Z.of_nat n).

(** ** odeSolver.ts *)

Module Ode.

(** [{ t: number; y: number[] }] *)
Record Sample := mkSample { sample_t : Qc; sample_y : list Qc }.

Section Solver.

(** [params: any] *)
Context {P : Type}.

(** [type ODEFunction = (t, y, params) => number[]] *)
Definition ODEFunction : Type := Qc → list Qc → P → list Qc.

(** Single step of the RK4 solver. *)
Definition rk4Step (f : ODEFunction) (t : Qc) (y : list Qc) (dt : Qc)
    (params : P) : list Qc :=
  let k1 := f t y params in
  let y2 := imap (λ i yi, yi + (dt / 2) * read k1 i) y in
  let k2 := f (t + dt / 2) y2 params in
  let y3 := imap (λ i yi, yi + (dt / 2) * read k2 i) y in
  let k3 := f (t + dt / 2) y3 params in
  let y4 := imap (λ i yi, yi + dt * read k3 i) y in
  let k4 := f (t + dt) y4 params in
  imap (λ i yi,
    yi + (dt / six) * (read k1 i + 2 * read k2 i + 2 * read k3 i + read k4 i)) y.

(** The [while (t < t1)] loop of [solveODE]; [solution] is the array
    being pushed to. *)
Fixpoint solveODE_loop (fuel : nat) (f : ODEFunction) (t : Qc) (y : list Qc)
    (t1 dt : Qc) (params : P) (solution : list Sample) : option (list Sample) :=
  if bool_decide (t < t1) then
    match fuel with
    | O => None
    | S fuel' =>
        let step := Math_min dt (t1 - t) in
        let y' := rk4Step f t y step params in
        let t' := t + step in
        solveODE_loop fuel' f t' y' t1 dt params
          (solution ++ [mkSample t' y'])
    end
  else Some solution.

(** Number of iterations that the loop needs when [dt > 0]:
    [ceil((t1 - t0) / dt)]. *)
Definition solveODE_iterations (t0 t1 dt : Qc) : nat :=
  Z.to_nat (Qceiling (this ((t1 - t0) / dt))).

(** Solve the ODE from [t0] to [t1] with fixed time step.  The loop is
    given the fuel that it needs; [None] is the loop that never ends,
    with whatever fuel (see [solveODE_None_diverges]). *)
Definition solveODE (f : ODEFunction) (y0 : list Qc) (t0 t1 dt : Qc)
    (params : P) : option (list Sample) :=
  solveODE_loop (solveODE_iterations t0 t1 dt) f t0 y0 t1 dt params
    [mkSample t0 y0].

(** The classical four-stage Runge-Kutta update, written with vector
    operations as the specification states it. *)
Definition vadd (u v : list Qc) : list Qc := zip_with Qcplus u v.
Definition vscale (c : Qc) (v : list Qc) : list Qc := (Qcmult c) <$> v.

Definition rk4_classical (f : ODEFunction) (t : Qc) (y : list Qc) (dt : Qc)
    (params : P) : list Qc :=
  let k1 := f t y params in
  let k2 := f (t + dt / 2) (vadd y (vscale (dt / 2) k1)) params in
  let k3 := f (t + dt / 2) (vadd y (vscale (dt / 2) k2)) params in
  let k4 := f (t + dt) (vadd y (vscale dt k3)) params in
  vadd y (vscale (dt / six)
    (vadd (vadd (vadd k1 (vscale 2 k2)) (vscale 2 k3)) k4)).

(** A solution is a chain: consecutive samples are one RK4 step of size
    [min(dt, remaining time)] apart. *)
Definition rk4_chain (f : ODEFunction) (t1 dt : Qc) (params : P)
    (sol : list Sample) : Prop :=
  ∀ k a b, sol !! k = Some a → sol !! S k = Some b →
    let step := Math_min dt (t1 - sample_t a) in
    sample_t a < t1 ∧
    sample_t b = sample_t a + step ∧
    sample_y b = rk4Step f (sample_t a) (sample_y a) step params.

End Solver.

Arguments ODEFunction : clear implicits.

End Ode.

(** ** odeSolver.ts over binary64

    The same two functions with a [number] as it is at run time, an IEEE
    754 binary64 value with the rounded operations of the kernel's
    primitive floats. *)

Module Ode64.

(** [{ t: number; y: number[] }] *)
Record Sample := mkSample { sample_t : float; sample_y : list float }.

(** [Math.min(a, b)]: [NaN] when an argument is [NaN], and [-0] below
    [+0]. *)
Definition Math_min (a b : float) : float :=
  if is_nan a || is_nan b then nan
  else if (b <? a)%float then b
  else if (a <? b)%float then a
  else if get_sign a then a else b.

(** [a[i]] used as an operand: [undefined] out of range, which every
    arithmetic operation turns into [NaN]. *)
Definition read (a : list float) (i : nat) : float := default nan (a !! i).

Section Solver.

(** [params: any] *)
Context {P : Type}.

(** [type ODEFunction = (t, y, params) => number[]] *)
Definition ODEFunction : Type := float → list float → P → list float.

(** Single step of the RK4 solver. *)
Definition rk4Step (f : ODEFunction) (t : float) (y : list float) (dt : float)
    (params : P) : list float :=
  let k1 := f t y params in
  let y2 := imap (λ i yi, yi + (dt / 2) * read k1 i)%float y in
  let k2 := f (t + dt / 2)%float y2 params in
  let y3 := imap (λ i yi, yi + (dt / 2) * read k2 i)%float y in
  let k3 := f (t + dt / 2)%float y3 params in
  let y4 := imap (λ i yi, yi + dt * read k3 i)%float y in
  let k4 := f (t + dt)%float y4 params in
  imap (λ i yi,
    yi + (dt / 6) * (read k1 i + 2 * read k2 i + 2 * read k3 i + read k4 i))%float
    y.

(** The [while (t < t1)] loop of [solveODE]; [solution] is the array
    being pushed to, [None] a loop that is still running when the fuel is
    spent. *)
Fixpoint solveODE_loop (fuel : nat) (f : ODEFunction) (t : float)
    (y : list float) (t1 dt : float) (params : P) (solution : list Sample)
    : option (list Sample) :=
  if (t <? t1)%float then
    match fuel with
    | O => None
    | S fuel' =>
        let step := Math_min dt (t1 - t)%float in
        let y' := rk4Step f t y step params in
        let t' := (t + step)%float in
        solveODE_loop fuel' f t' y' t1 dt params
          (solution ++ [mkSample t' y'])
    end
  else Some solution.

(** Solve the ODE from [t0] to [t1] with fixed time step, for at most
    [fuel] iterations of the loop. *)
Definition solveODE (fuel : nat) (f : ODEFunction) (y0 : list float)
    (t0 t1 dt : float) (params : P) : option (list Sample) :=
  solveODE_loop fuel f t0 y0 t1 dt params [mkSample t0 y0].

End Solver.

Arguments ODEFunction : clear implicits.

End Ode64.

(** ** Control flow shared by the modules *)

(** [for (let i = 0; i < n; i++) body] over a threaded state. *)
Definition for_range {St : Type} (n : nat) (body : nat → St → St) (s : St) : St :=
  foldl (λ s i, body i s) s (seq 0 n).

(** [row.reduce((acc, val, i) => f(acc, val, i), init)] *)
Definition reduce_i {A B : Type} (f : B → A → nat → B) (init : B) (l : list A) : B :=
  foldl (λ acc p, f acc p.2 p.1) init (zip (seq 0 (length l)) l).

(** A relation that holds between every element of a list and its
    successor. *)
Definition adjacent {A : Type} (R : A → A → Prop) (l : list A) : Prop :=
  ∀ k a b, l !! k = Some a → l !! S k = Some b → R a b.

(** A call that returns or throws. *)
Inductive Result (A : Type) : Type :=
  | Ok (a : A)
  | Thrown (msg : string).

Arguments Ok {A} a.
Arguments Thrown {A} msg.

(** Matrices are arrays of rows. *)
Abbreviation matrix := (list (list Qc)).

(** [Array(n).fill(0).map(() => Array(m).fill(0))] *)
Definition zeros (n m : nat) : matrix := replicate n (replicate m 0).

(** [Y[i][j]] *)
Definition read2 (Y : matrix) (i j : nat) : Qc := read (default [] (Y !! i)) j.

(** [Y[i][j] = v] and [Y[i][j] += v], for [i], [j] within the matrix. *)
Definition mat_set (i j : nat) (v : Qc) (Y : matrix) : matrix :=
  alter (λ row, <[j := v]> row) i Y.
Definition mat_add (i j : nat) (v : Qc) (Y : matrix) : matrix :=
  alter (alter (λ x, x + v) j) i Y.

(** [Y.map(row => row.map(val => Math.max(0, val)))] and the same with
    [Math.min]: the split into mutualistic and competitive matrices. *)
Definition split_mut (Y : matrix) : matrix := map (map (Math_max 0)) Y.
Definition split_comp (Y : matrix) : matrix := map (map (Math_min 0)) Y.

(** [Y[i][j]] where it exists. *)
Definition cell (Y : matrix) (i j : nat) : option Qc := Y !! i ≫= (.!! j).


(** ** ecologyModel.ts *)

Module Ecology.

Record EcologyParams := mkEcologyParams {
  Y_mut : matrix;      (* Mutualistic interaction matrix *)
  Y_comp : matrix;     (* Competition interaction matrix *)
  r : list Qc;         (* Intrinsic growth rates *)
  h : list Qc          (* Half-saturation constants *)
}.

Record ModelConfig := mkModelConfig {
  nSpecies : nat;
  mutualisticStrength : Qc;
  dispersalStrength : Qc;
  competitionStrength : Qc;
  halfSaturation : Qc;
  customNetwork : option (matrix * matrix)
}.

(** Body of the double loop of [generateInteractionMatrices]. *)
Definition ring_cell (n : nat) (mutualistic competition : Qc) (i j : nat)
    (Y : matrix) : matrix :=
  if bool_decide (i ≠ j) then
    if bool_decide ((i + 1) `mod` n = j ∨ (j + 1) `mod` n = i)%nat
    then mat_set i j mutualistic Y
    else mat_set i j competition Y
  else Y.

(** Generate interaction matrices based on network structure. *)
Definition generateInteractionMatrices (config : ModelConfig) : matrix * matrix :=
  let n := nSpecies config in
  let Y0 := zeros n n in
  let Y :=
    for_range n (λ i Y,
      for_range n (λ j Y,
        ring_cell n (mutualisticStrength config) (competitionStrength config) i j Y)
        Y) Y0 in
  (split_mut Y, split_comp Y).

(** Matrix-vector multiplication. *)
Definition matVecMult (mx : matrix) (vec : list Qc) : list Qc :=
  map (λ row, reduce_i (λ sum val i, sum + val * read vec i) 0 row) mx.

(** Element-wise division with saturation (Type II functional response). *)
Definition typeIIResponse (mutRaw hs : list Qc) : list Qc :=
  imap (λ i val, val / (1 + read hs i * val)) mutRaw.

(** ODE function for Lotka-Volterra dynamics with Type II functional
    response: [dN[i]/dt = N[i] * (r[i] - N[i] + comp_sum[i] + M[i])]. *)
Definition ecoDynamicsTypeII (t : Qc) (N : list Qc) (params : EcologyParams)
    : list Qc :=
  let mutRaw := matVecMult (Y_mut params) N in
  let M := typeIIResponse mutRaw (h params) in
  let compSum := matVecMult (Y_comp params) N in
  imap (λ i Ni,
    if bool_decide (Ni ≤ 0) then 0
    else Ni * (read (r params) i - Ni + read compSum i + read M i)) N.

End Ecology.

(** ** networkBuilder.ts *)

Module Network.

(** [B]: pollination biadjacency matrix, [S]: seed dispersal biadjacency
    matrix; [null] is [None]. *)
Record BipartiteNetwork := mkBipartiteNetwork {
  net_B : option matrix;
  net_S : option matrix
}.

(** [m], [d]: mutualistic strengths for pollination and dispersal; [c]:
    competition strength. *)
Record NetworkParams := mkNetworkParams {
  par_m : Qc;
  par_d : Qc;
  par_c : Qc
}.

Record Interaction := mkInteraction {
  out_Y_mut : matrix;
  out_Y_comp : matrix;
  out_nSpecies : nat
}.

(** Pad matrix to target dimensions with zeros. *)
Definition padMatrix (mx : option matrix) (targetRows targetCols : nat)
    : option matrix :=
  match mx with
  | None => None
  | Some mx =>
      Some (map (λ i,
              map (λ j,
                if bool_decide (i < length mx ∧ j < length (default [] (mx !! 0)))%nat
                then read2 mx i j
                else 0) (seq 0 targetCols)) (seq 0 targetRows))
  end.

(** [Np = Math.max(Np, M.length); Na = Math.max(Na, M[0].length)] for a
    supplied matrix; [M[0].length] throws on an empty array. *)
Definition grow_dims (mx : option matrix) (dims : nat * nat) : Result (nat * nat) :=
  match mx with
  | None => Ok dims
  | Some [] => Thrown "TypeError: cannot read properties of undefined"
  | Some (row0 :: rows) =>
      Ok (dims.1 `max` length (row0 :: rows), dims.2 `max` length row0)%nat
  end.

(** Active species of one layer: the two flag arrays after the double
    loop over the padded matrix. *)
Definition active (padded : option matrix) (Np Na : nat) : list bool * list bool :=
  let flags0 := (replicate Np false, replicate Na false) in
  match padded with
  | None => flags0
  | Some mx =>
      for_range Np (λ i flags,
        for_range Na (λ j flags,
          if bool_decide (0 < read2 mx i j)
          then (<[i := true]> flags.1, <[j := true]> flags.2)
          else flags) flags) flags0
  end.

(** [flags.filter(Boolean).length] *)
Definition count_active (flags : list bool) : nat := length (List.filter id flags).

(** [flags[i]] *)
Definition flag (flags : list bool) (i : nat) : bool := default false (flags !! i).

(** [Math.max(n_active - 1, 1)] *)
Definition comp_denom (n_active : nat) : Qc := Math_max (of_nat n_active - 1) 1.

(** Competition within one type, whose block of [Y] starts at [off]. *)
Definition competition (n off : nat) (c : Qc) (in_B in_S : list bool)
    (denom_b denom_s : Qc) (Y : matrix) : matrix :=
  for_range n (λ j Y,
    for_range n (λ i Y,
      if bool_decide (i ≠ j) then
        let Y1 :=
          if flag in_B i && flag in_B j
          then mat_add (off + i) (off + j) (c / denom_b) Y else Y in
        if flag in_S i && flag in_S j
        then mat_add (off + i) (off + j) (c / denom_s) Y1 else Y1
      else Y) Y) Y.

Section Sqrt.

(** [Math.sqrt] *)
Variable Math_sqrt : Qc → Qc.

(** Mutualistic edges of one layer with strength [s]. *)
Definition mutualism (padded : option matrix) (Np Na : nat) (s : Qc)
    (Y : matrix) : matrix :=
  match padded with
  | None => Y
  | Some mx =>
      let row_sum := map (λ row, foldl (λ sum val, sum + val) 0 row) mx in
      let col_sum :=
        for_range Na (λ j sums,
          for_range Np (λ i sums,
            alter (λ x, x + read2 mx i j) j sums) sums) (replicate Na 0) in
      for_range Np (λ i Y,
        for_range Na (λ j Y,
          if bool_decide (0 < read2 mx i j) then
            (* Plant -> animal *)
            let denom_p := read row_sum i in
            let Y1 :=
              if bool_decide (0 < denom_p)
              then mat_add i (Np + j) (s * read2 mx i j / Math_sqrt denom_p) Y
              else Y in
            (* Animal -> plant *)
            let denom_a := read col_sum j in
            if bool_decide (0 < denom_a)
            then mat_add (Np + j) i (s * read2 mx i j / Math_sqrt denom_a) Y1
            else Y1
          else Y) Y) Y
  end.

(** Build interaction matrix Y from biadjacency matrices B and S. *)
Definition buildInteractionMatrix (network : BipartiteNetwork)
    (params : NetworkParams) : Result Interaction :=
  let B := net_B network in
  let S := net_S network in
  match B, S with
  | None, None =>
      Thrown "At least one biadjacency matrix (B or S) must be provided"
  | _, _ =>
      match grow_dims B (0%nat, 0%nat) with
      | Thrown msg => Thrown msg
      | Ok dimsB =>
          match grow_dims S dimsB with
          | Thrown msg => Thrown msg
          | Ok (Np, Na) =>
              let Nt := (Np + Na)%nat in
              let Y0 := zeros Nt Nt in
              let B_padded := padMatrix B Np Na in
              let S_padded := padMatrix S Np Na in
              let '(plant_in_B, animal_in_B) := active B_padded Np Na in
              let '(plant_in_S, animal_in_S) := active S_padded Np Na in
              let comp_denom_p_b := comp_denom (count_active plant_in_B) in
              let comp_denom_a_b := comp_denom (count_active animal_in_B) in
              let comp_denom_p_s := comp_denom (count_active plant_in_S) in
              let comp_denom_a_s := comp_denom (count_active animal_in_S) in
              let Y1 := competition Np 0 (par_c params) plant_in_B plant_in_S
                          comp_denom_p_b comp_denom_p_s Y0 in
              let Y2 := competition Na Np (par_c params) animal_in_B animal_in_S
                          comp_denom_a_b comp_denom_a_s Y1 in
              let Y3 := mutualism B_padded Np Na (par_m params) Y2 in
              let Y4 := mutualism S_padded Np Na (par_d params) Y3 in
              Ok (mkInteraction (split_mut Y4) (split_comp Y4) Nt)
          end
      end
  end.

End Sqrt.

End Network.

(** ** simulationEngine.ts *)

Module Engine.

Import Ode.

Record HurricaneCategory := mkCategory {
  cat_name : string;
  cat_probability : Qc;
  cat_damage : Qc
}.

Record SimulationConfig := mkConfig {
  hurricaneRate : Qc;                           (* Lambda: average hurricanes per year *)
  hurricaneCategories : list HurricaneCategory;
  extinctionThreshold : Qc;                     (* Fraction of initial population *)
  timeStep : Qc                                 (* ODE solver time step *)
}.


Record HurricaneEvent := mkEvent {
  ev_time : Qc;
  ev_category : string;
  ev_damage : Qc
}.

Record SimulationState := mkState {
  time : Qc;
  populations : list Qc;
  hurricanes : list HurricaneEvent;
  extinctSpecies : gset nat;
  history : list Sample
}.

(** The source of [Math.random()]: the draws still to come, each in
    [0, 1), and the number of draws made so far. *)
Record Random := mkRandom {
  draws : nat → Qc;
  drawn : nat
}.

(** Every draw is in [0, 1). *)
Definition unit_draws (rng : Random) : Prop :=
  ∀ n, 0 ≤ draws rng n ∧ draws rng n < 1.

(** The source after one more draw. *)
Definition advance (rng : Random) : Random :=
  mkRandom (draws rng) (S (drawn rng)).

Definition Math_random (rng : Random) : Qc * Random :=
  (draws rng (drawn rng), advance rng).

(** The loop of [drawHurricaneDamage]: the first category whose
    cumulative probability reaches [rand], if any. *)
Fixpoint drawLoop (rand cumProb : Qc) (categories : list HurricaneCategory)
    : option HurricaneCategory :=
  match categories with
  | [] => None
  | cat :: rest =>
      let cumProb := cumProb + cat_probability cat in
      if bool_decide (rand ≤ cumProb) then Some cat
      else drawLoop rand cumProb rest
  end.

(** Draw hurricane damage from the probability mass function, for the draw
    [rand]; with no category at all, reading [last.name] throws. *)
Definition drawHurricaneDamage_at (rand : Qc)
    (categories : list HurricaneCategory) : Result (string * Qc) :=
  match drawLoop rand 0 categories with
  | Some cat => Ok (cat_name cat, cat_damage cat)
  | None =>
      (* Fallback to last category *)
      match last categories with
      | Some cat => Ok (cat_name cat, cat_damage cat)
      | None => Thrown "TypeError: cannot read properties of undefined"
      end
  end.

(** Cumulative probability, in list order, up to and including the
    category at index [k], on top of [cumProb]. *)
Definition cumulative_from (cumProb : Qc) (categories : list HurricaneCategory)
    (k : nat) : Qc :=
  foldl (λ cumProb cat, cumProb + cat_probability cat) cumProb
    (take (S k) categories).

Definition cumulative (categories : list HurricaneCategory) (k : nat) : Qc :=
  cumulative_from 0 categories k.

Definition drawHurricaneDamage (categories : list HurricaneCategory)
    (rng : Random) : Result (string * Qc) * Random :=
  let '(rand, rng) := Math_random rng in
  (drawHurricaneDamage_at rand categories, rng).

(** [newPop < this.extinctionThresholds[i]]; a comparison with
    [undefined] is false. *)
Definition belowThreshold (thresholds : list Qc) (i : nat) (newPop : Qc) : bool :=
  match thresholds !! i with
  | Some threshold => bool_decide (newPop < threshold)
  | None => false
  end.

(** The callback of [populations.map] in [step]: damage and extinction
    check, with the extinct set as threaded state. *)
Fixpoint applyDamage (damage : Qc) (thresholds : list Qc) (i : nat)
    (pops : list Qc) (extinct : gset nat) : list Qc * gset nat :=
  match pops with
  | [] => ([], extinct)
  | pop :: rest =>
      let newPop := pop * (1 - damage) in
      if belowThreshold thresholds i newPop then
        let '(rest', extinct') :=
          applyDamage damage thresholds (S i) rest ({[i]} ∪ extinct) in
        (0 :: rest', extinct')
      else
        let '(rest', extinct') :=
          applyDamage damage thresholds (S i) rest extinct in
        (newPop :: rest', extinct')
  end.

Section Engine.

(** [Math.log] *)
Variable Math_log : Qc → Qc.

(** Type of [ecologyParams]. *)
Context {P : Type}.

Record SimulationEngine := mkEngine {
  odeFunction : ODEFunction P;
  ecologyParams : P;
  config : SimulationConfig;
  state : SimulationState;
  initialPopulations : list Qc;
  extinctionThresholds : list Qc
}.

(** Generate a random number from the exponential distribution, from the
    uniform draw [u]. *)
Definition randomExponential_at (lambda u : Qc) : Qc :=
  - Math_log (1 - u) / lambda.

Definition randomExponential (lambda : Qc) (rng : Random) : Qc * Random :=
  let '(u, rng) := Math_random rng in
  (randomExponential_at lambda u, rng).

Definition initialState (initialPopulations : list Qc) : SimulationState :=
  {| time := 0;
     populations := initialPopulations;
     hurricanes := [];
     extinctSpecies := ∅;
     history := [mkSample 0 initialPopulations] |}.

(** [constructor(odeFunction, ecologyParams, initialPopulations, config)] *)
Definition new (odeFunction : ODEFunction P) (ecologyParams : P)
    (initialPopulations : list Qc) (config : SimulationConfig)
    : SimulationEngine :=
  {| odeFunction := odeFunction;
     ecologyParams := ecologyParams;
     config := config;
     initialPopulations := initialPopulations;
     extinctionThresholds :=
       map (λ pop, pop * extinctionThreshold config) initialPopulations;
     state := initialState initialPopulations |}.

(** Reset simulation to initial conditions. *)
Definition reset (initial : option (list Qc)) (e : SimulationEngine)
    : SimulationEngine :=
  let e1 :=
    match initial with
    | Some initialPopulations =>
        {| odeFunction := odeFunction e;
           ecologyParams := ecologyParams e;
           config := config e;
           state := state e;
           initialPopulations := initialPopulations;
           extinctionThresholds :=
             map (λ pop, pop * extinctionThreshold (config e)) initialPopulations |}
    | None => e
    end in
  {| odeFunction := odeFunction e1;
     ecologyParams := ecologyParams e1;
     config := config e1;
     state := initialState (initialPopulations e1);
     initialPopulations := initialPopulations e1;
     extinctionThresholds := extinctionThresholds e1 |}.

(** Update model parameters. *)
Definition updateParams (params : P) (e : SimulationEngine) : SimulationEngine :=
  {| odeFunction := odeFunction e;
     ecologyParams := params;
     config := config e;
     state := state e;
     initialPopulations := initialPopulations e;
     extinctionThresholds := extinctionThresholds e |}.



Definition with_state (e : SimulationEngine) (st : SimulationState)
    : SimulationEngine :=
  {| odeFunction := odeFunction e;
     ecologyParams := ecologyParams e;
     config := config e;
     state := st;
     initialPopulations := initialPopulations e;
     extinctionThresholds := extinctionThresholds e |}.

(** How a call of [step] ends: it returns the next hurricane time or
    [null], it throws, or it does not terminate.  The engine and the random
    source are as the call leaves them. *)
Inductive Outcome : Type :=
  | Returned (e : SimulationEngine) (rng : Random) (result : option Qc)
  | Threw (e : SimulationEngine) (rng : Random) (msg : string)
  | Diverged.

(** [startTime + timeToNext]: the candidate event time of a step that
    draws one. *)
Definition candidate (e : SimulationEngine) (rng : Random) : Qc :=
  time (state e) +
  randomExponential_at (hurricaneRate (config e)) (draws rng (drawn rng)).

(** "Generate next hurricane time": the event time retained for this
    step, if any. *)
Definition nextHurricane (e : SimulationEngine) (duration : Qc) (rng : Random)
    : option Qc * Random :=
  let startTime := time (state e) in
  let endTime := startTime + duration in
  if bool_decide (0 < hurricaneRate (config e)) then
    let '(timeToNext, rng) := randomExponential (hurricaneRate (config e)) rng in
    let nextHurricaneTime := startTime + timeToNext in
    (* Only consider if within this step *)
    if bool_decide (endTime < nextHurricaneTime) then (None, rng)
    else (Some nextHurricaneTime, rng)
  else (None, rng).

(** "Solve ODE from current time to actual end time": the state after the
    continuous segment; [None] when the solver does not terminate. *)
Definition integrate (e : SimulationEngine) (actualEndTime : Qc)
    : option SimulationState :=
  let st := state e in
  let startTime := time st in
  if bool_decide (startTime < actualEndTime) then
    match solveODE (odeFunction e) (populations st) startTime actualEndTime
            (timeStep (config e)) (ecologyParams e) with
    | None => None
    | Some solution =>
        Some {| time := actualEndTime;
                populations :=
                  sample_y (default (mkSample startTime (populations st))
                              (last solution));
                hurricanes := hurricanes st;
                extinctSpecies := extinctSpecies st;
                (* skip first point as it's already in history *)
                history := history st ++ drop 1 solution |}
    end
  else Some st.

(** "Apply hurricane if it occurred", for the drawn category. *)
Definition applyHurricane (e : SimulationEngine) (st : SimulationState)
    (nextHurricaneTime : Qc) (category : string) (damage : Qc)
    : SimulationState :=
  let hurricanes' := hurricanes st ++ [mkEvent nextHurricaneTime category damage] in
  let '(populations', extinct') :=
    applyDamage damage (extinctionThresholds e) 0 (populations st)
      (extinctSpecies st) in
  {| time := time st;
     populations := populations';
     hurricanes := hurricanes';
     extinctSpecies := extinct';
     history := history st ++ [mkSample nextHurricaneTime populations'] |}.

(** Step simulation forward by a given duration. *)
Definition step (duration : Qc) (e : SimulationEngine) (rng : Random) : Outcome :=
  let startTime := time (state e) in
  let endTime := startTime + duration in
  let '(nextHurricaneTime, rng) := nextHurricane e duration rng in
  let actualEndTime := default endTime nextHurricaneTime in
  match integrate e actualEndTime with
  | None => Diverged
  | Some st =>
      match nextHurricaneTime with
      | None => Returned (with_state e st) rng None
      | Some eventTime =>
          let '(draw, rng) :=
            drawHurricaneDamage (hurricaneCategories (config e)) rng in
          match draw with
          | Thrown msg => Threw (with_state e st) rng msg
          | Ok (category, damage) =>
              Returned (with_state e (applyHurricane e st eventTime category damage))
                rng (Some eventTime)
          end
      end
  end.

(** A run: [step] called with each duration in turn; the value is the
    engine after the calls (the steps' own return values are dropped). *)
Fixpoint run (durations : list Qc) (e : SimulationEngine) (rng : Random)
    : Outcome :=
  match durations with
  | [] => Returned e rng None
  | duration :: rest =>
      match step duration e rng with
      | Returned e' rng' _ => run rest e' rng'
      | other => other
      end
  end.

(** The state of the engine after a call that returned. *)
Definition final (o : Outcome) : option SimulationState :=
  match o with
  | Returned e _ _ => Some (state e)
  | _ => None
  end.

(** An engine as the constructor or [reset] leaves it. *)
Definition fresh (e : SimulationEngine) : Prop :=
  state e = initialState (initialPopulations e).



(** Accessors, by value. *)
Definition getState (e : SimulationEngine) : SimulationState := state e.
Definition getTime (e : SimulationEngine) : Qc := time (state e).
Definition getPopulations (e : SimulationEngine) : list Qc := populations (state e).
Definition getHurricanes (e : SimulationEngine) : list HurricaneEvent :=
  hurricanes (state e).

End Engine.

Arguments SimulationEngine : clear implicits.
Arguments Outcome : clear implicits.

#[global] Instance Sample_eq_dec : EqDecision Ode.Sample.
Proof. solve_decision. Defined.

#[global] Instance HurricaneEvent_eq_dec : EqDecision HurricaneEvent.
Proof. solve_decision. Defined.

#[global] Instance SimulationState_eq_dec : EqDecision SimulationState.
Proof. solve_decision. Defined.

End Engine.

(** ** Object identity: the accessors on a heap

    The accessors of the engine copy arrays and records.  What a caller
    can change through a returned value depends on which objects the copy
    shares with the engine, so here the state of the engine lives in a
    heap of objects and the accessors are programs on that heap. *)

Module Heap.

Abbreviation loc := nat.

Inductive object : Type :=
  | Numbers (elems : list Qc)                          (* number[] *)
  | Refs (elems : list loc)                            (* an array of objects *)
  | EventObj (time : Qc) (category : string) (damage : Qc)  (* HurricaneEvent *)
  | SampleObj (t : Qc) (y : loc)                       (* { t, y } *)
  | SetObj (elems : gset nat)                          (* Set<number> *)
  | StateObj (time : Qc)
      (populations hurricanes extinctSpecies history : loc). (* SimulationState *)

(** A location is an index of the heap; allocation appends. *)
Abbreviation heap := (list object).

(** Heap programs; [None] is a read of an object of the wrong shape. *)
Definition M (A : Type) : Type := heap → option (A * heap).

Definition ret {A : Type} (a : A) : M A := λ h, Some (a, h).

Definition bind {A B : Type} (m : M A) (k : A → M B) : M B :=
  λ h, match m h with
       | Some (a, h') => k a h'
       | None => None
       end.

Notation "'let*' x := c 'in' k" := (bind c (λ x, k))
  (at level 10, x name, c at level 100, k at level 200).

Definition fail {A : Type} : M A := λ _, None.

Definition get (l : loc) : M object := λ h, (λ o, (o, h)) <$> h !! l.

Definition alloc (o : object) : M loc := λ h, Some (length h, h ++ [o]).

(** [xs.map(f)] for a callback that allocates. *)
Fixpoint mapHeap {A B : Type} (f : A → M B) (xs : list A) : M (list B) :=
  match xs with
  | [] => ret []
  | x :: xs =>
      let* y := f x in
      let* ys := mapHeap f xs in
      ret (y :: ys)
  end.

(** [[...a]] for a number array, [[...a]] for an array of objects (the
    elements are the same objects), [new Set(s)]. *)
Definition copyNumbers (a : loc) : M loc :=
  let* o := get a in
  match o with
  | Numbers xs => alloc (Numbers xs)
  | _ => fail
  end.

Definition copyRefs (a : loc) : M loc :=
  let* o := get a in
  match o with
  | Refs ls => alloc (Refs ls)
  | _ => fail
  end.

Definition copySet (s : loc) : M loc :=
  let* o := get s in
  match o with
  | SetObj elems => alloc (SetObj elems)
  | _ => fail
  end.

(** [h => ({ ...h, y: [...h.y] })] *)
Definition copySample (l : loc) : M loc :=
  let* o := get l in
  match o with
  | SampleObj t y =>
      let* y' := copyNumbers y in
      alloc (SampleObj t y')
  | _ => fail
  end.

(** [getState()], for [this.state] at location [state]. *)
Definition getState (state : loc) : M loc :=
  let* o := get state in
  match o with
  | StateObj time populations hurricanes extinctSpecies history =>
      let* populations' := copyNumbers populations in
      let* hurricanes' := copyRefs hurricanes in
      let* extinctSpecies' := copySet extinctSpecies in
      let* samples := get history in
      match samples with
      | Refs ls =>
          let* ls' := mapHeap copySample ls in
          let* history' := alloc (Refs ls') in
          alloc (StateObj time populations' hurricanes' extinctSpecies' history')
      | _ => fail
      end
  | _ => fail
  end.

(** [getTime()] *)
Definition getTime (state : loc) : M Qc :=
  let* o := get state in
  match o with
  | StateObj time _ _ _ _ => ret time
  | _ => fail
  end.

(** [getPopulations()] *)
Definition getPopulations (state : loc) : M loc :=
  let* o := get state in
  match o with
  | StateObj _ populations _ _ _ => copyNumbers populations
  | _ => fail
  end.

(** [getHurricanes()] *)
Definition getHurricanes (state : loc) : M loc :=
  let* o := get state in
  match o with
  | StateObj _ _ hurricanes _ _ => copyRefs hurricanes
  | _ => fail
  end.

(** The value of the state that the heap holds at [state]. *)
Definition readNumbers (h : heap) (l : loc) : option (list Qc) :=
  match h !! l with
  | Some (Numbers xs) => Some xs
  | _ => None
  end.

Definition readEvent (h : heap) (l : loc) : option Engine.HurricaneEvent :=
  match h !! l with
  | Some (EventObj time category damage) =>
      Some (Engine.mkEvent time category damage)
  | _ => None
  end.

Definition readSample (h : heap) (l : loc) : option Ode.Sample :=
  match h !! l with
  | Some (SampleObj t y) => Ode.mkSample t <$> readNumbers h y
  | _ => None
  end.

Definition readRefs {A : Type} (h : heap) (readElem : heap → loc → option A)
    (l : loc) : option (list A) :=
  match h !! l with
  | Some (Refs ls) => mapM (readElem h) ls
  | _ => None
  end.

Definition readSet (h : heap) (l : loc) : option (gset nat) :=
  match h !! l with
  | Some (SetObj elems) => Some elems
  | _ => None
  end.

Definition view (h : heap) (state : loc) : option Engine.SimulationState :=
  match h !! state with
  | Some (StateObj time populations hurricanes extinctSpecies history) =>
      pops ← readNumbers h populations;
      events ← readRefs h readEvent hurricanes;
      extinct ← readSet h extinctSpecies;
      samples ← readRefs h readSample history;
      Some (Engine.mkState time pops events extinct samples)
  | _ => None
  end.

(** The objects that a caller reaches from a value: the object itself and
    what its fields and elements refer to. *)
Definition children (o : object) : list loc :=
  match o with
  | Refs ls => ls
  | SampleObj _ y => [y]
  | StateObj _ populations hurricanes extinctSpecies history =>
      [populations; hurricanes; extinctSpecies; history]
  | Numbers _ | EventObj _ _ _ | SetObj _ => []
  end.

Fixpoint reach (depth : nat) (h : heap) (l : loc) : list loc :=
  l :: match depth with
       | O => []
       | S depth =>
           match h !! l with
           | Some o => flat_map (reach depth h) (children o)
           | None => []
           end
       end.

(** A state has references three levels deep (state, history, sample,
    numbers). *)
Definition reachable (h : heap) (l : loc) : list loc := reach 3 h l.

(** An assignment by the caller: the object at [l] becomes [o]. *)
Definition store (l : loc) (o : object) (h : heap) : heap := <[l := o]> h.

(** [h'] holds every object of [h] where [h] holds it. *)
Definition extends (h h' : heap) : Prop :=
  ∀ l o, h !! l = Some o → h' !! l = Some o.

(** A program that only allocates. *)
Definition allocates {A : Type} (m : M A) : Prop :=
  ∀ h a h', m h = Some (a, h') → ∃ ext, h' = h ++ ext.

End Heap.

(** ** Fields and factors that exercise the integrator *)

Module Fields.



End Fields.

(** ** ecologyModel.ts: the random initial values *)

Module Setup.

Import Ecology Engine.

(** [Array(n).fill(0).map(() => g(Math.random()))]: one draw for each
    element, in the order of the indices. *)
Fixpoint random_array (g : Qc → Qc) (n : nat) (rng : Random) : list Qc * Random :=
  match n with
  | O => ([], rng)
  | S n' =>
      let '(u, rng1) := Math_random rng in
      let '(rest, rng2) := random_array g n' rng1 in
      (g u :: rest, rng2)
  end.

(** Initialize random growth rates. *)
Definition initializeGrowthRates (nSpecies : nat) (rng : Random)
    : list Qc * Random :=
  random_array (λ u, num 1 / num 10 + u * (num 4 / num 10)) nSpecies rng.

(** Initialize random initial populations. *)
Definition initializePopulations (nSpecies : nat) (rng : Random)
    : list Qc * Random :=
  random_array (λ u, num 3 / num 10 + u * (num 7 / num 10)) nSpecies rng.

(** Create ecology parameters from configuration: the parameters, the
    initial population and the random source after the draws. *)
Definition createEcologyParams (config : ModelConfig) (rng : Random)
    : EcologyParams * list Qc * Random :=
  (* Use custom network if provided, otherwise generate random *)
  let '(Y_mut, Y_comp) :=
    match customNetwork config with
    | Some custom => custom
    | None => generateInteractionMatrices config
    end in
  let '(r, rng1) := initializeGrowthRates (nSpecies config) rng in
  let h := replicate (nSpecies config) (halfSaturation config) in
  let '(initialPopulation, rng2) := initializePopulations (nSpecies config) rng1 in
  (mkEcologyParams Y_mut Y_comp r h, initialPopulation, rng2).

End Setup.

(** ** networkBuilder.ts: the statistics of a network *)

Module Stats.

Import Network.

Record NetworkStats := mkNetworkStats {
  nPlants : nat;
  nAnimals : nat;
  nTotal : nat;
  nPollinationLinks : nat;
  nDispersalLinks : nat
}.

(** [for (const row of M) n += row.filter(v => v > 0).length] for a
    supplied matrix. *)
Definition count_links (mx : option matrix) : nat :=
  match mx with
  | None => 0%nat
  | Some mx =>
      foldl (λ n row, (n + length (filter (λ v : Qc, (0 < v)%Qc) row))%nat)
        0%nat mx
  end.

(** Get network statistics for display; [M[0].length] throws on an empty
    array, as in [buildInteractionMatrix]. *)
Definition getNetworkStats (network : BipartiteNetwork) : Result NetworkStats :=
  match grow_dims (net_B network) (0%nat, 0%nat) with
  | Thrown msg => Thrown msg
  | Ok dimsB =>
      let nPollinationLinks := count_links (net_B network) in
      match grow_dims (net_S network) dimsB with
      | Thrown msg => Thrown msg
      | Ok (nPlants, nAnimals) =>
          let nDispersalLinks := count_links (net_S network) in
          Ok (mkNetworkStats nPlants nAnimals (nPlants + nAnimals)
                nPollinationLinks nDispersalLinks)
      end
  end.

End Stats.

(** ** defaultNetwork.ts *)

Module DefaultNetwork.

Import Network.

(** Generate default multilayer bipartite network: 3 plants, 3 pollinators,
    3 seed dispersers (total 6 animals). *)
Definition generateDefaultNetwork : BipartiteNetwork :=
  let nPlants := 3%nat in
  let nAnimals := 6%nat in
  let B := zeros nPlants nAnimals in
  let S := zeros nPlants nAnimals in
  (* Pollination network (B) *)
  let B := mat_set 0 0 1 B in
  let B := mat_set 0 1 1 B in
  let B := mat_set 1 1 1 B in
  let B := mat_set 1 2 1 B in
  let B := mat_set 2 0 1 B in
  let B := mat_set 2 2 1 B in
  (* Seed dispersal network (S) *)
  let S := mat_set 0 3 1 S in
  let S := mat_set 0 4 1 S in
  let S := mat_set 1 4 1 S in
  let S := mat_set 1 5 1 S in
  let S := mat_set 2 3 1 S in
  let S := mat_set 2 5 1 S in
  mkBipartiteNetwork (Some B) (Some S).

(** Check if a network is the default network; [null] is [None]. *)
Definition isDefaultNetwork (network : option BipartiteNetwork) : bool :=
  match network with
  | Some (mkBipartiteNetwork (Some B) (Some _)) =>
      let defaultNet := generateDefaultNetwork in
      (* Simple check: compare dimensions *)
      match net_B defaultNet with
      | None => false
      | Some defaultB =>
          if bool_decide (length B ≠ length defaultB) then false
          else if bool_decide (length (default [] (B !! 0%nat))
                               ≠ length (default [] (defaultB !! 0%nat)))
          then false
          else true
      end
  | _ => false
  end.

End DefaultNetwork.

(** ** Home.tsx: the hurricane probabilities *)

Module Home.

Import Engine.






End Home.

(** ** Shapes and values of matrices *)

(** An [n] by [n] matrix. *)
Definition square (n : nat) (Y : matrix) : Prop :=
  length Y = n ∧ Forall (λ row, length row = n) Y.

(** The signed interaction of species [j] on species [i] in a ring of [n]
    species: nothing on the diagonal, [m] between neighbours of the ring,
    [c] between the others. *)
Definition ring_value (n : nat) (m c : Qc) (i j : nat) : Qc :=
  if bool_decide (i = j) then 0
  else if bool_decide ((i + 1) `mod` n = j ∨ (j + 1) `mod` n = i)%nat then m
  else c.

(** A property of every cell of a matrix. *)
Definition pointwise (R : nat → nat → Qc → Prop) (Y : matrix) : Prop :=
  ∀ i j x, cell Y i j = Some x → R i j x.

(** The number of rows and of columns that the builder and the statistics
    read off a supplied matrix: [M.length] and [M[0].length]. *)
Definition n_rows (mx : option matrix) : nat := from_option length 0%nat mx.
Definition n_cols (mx : option matrix) : nat :=
  from_option (λ m, length (default [] (m !! 0%nat))) 0%nat mx.

(** With [Np] plants numbered before the animals, [i] and [j] are of the
    same guild when both are plants or both are animals. *)
Definition same_guild (Np i j : nat) : Prop := (i < Np)%nat ↔ (j < Np)%nat.

(** No species acts on itself. *)
Definition hollow (i j : nat) (x : Qc) : Prop := i = j → x = 0.


(** Where the two nested loops of the ring generator stand at row [i] and
    column [l]: the cells before that place hold the ring's value, the
    others are still zero. *)
Definition ring_cells_done (n : nat) (m c : Qc) (i l : nat) (Y : matrix) : Prop :=
  square n Y ∧
  ∀ i' j', (i' < n)%nat → (j' < n)%nat →
    ((i' < i ∨ i' = i ∧ j' < l)%nat → cell Y i' j' = Some (ring_value n m c i' j')) ∧
    (¬ (i' < i ∨ i' = i ∧ j' < l)%nat → cell Y i' j' = Some 0).

(** ** Invariants of the state of the engine *)

Module Invariants.

Import Ode Engine.

(** The populations and all the samples have [n] components. *)
Definition dimension (n : nat) (st : SimulationState) : Prop :=
  length (populations st) = n ∧
  Forall (λ s, length (sample_y s) = n) (history st).

(** Every species of the extinct set has population [0]. *)
Definition extinct_are_gone (st : SimulationState) : Prop :=
  ∀ i, i ∈ extinctSpecies st → populations st !! i = Some 0.

(** The events of the log are in the order of their times, none of them
    after the current time. *)
Definition event_log_ordered (st : SimulationState) : Prop :=
  adjacent (λ a b, ev_time a ≤ ev_time b) (hurricanes st) ∧
  ∀ ev, ev ∈ hurricanes st → ev_time ev ≤ time st.

End Invariants.

(** ** Concrete inputs

    The inputs on which the properties below are evaluated. *)

Module Inputs.

Import Ode Engine.

(** The fraction [a / b]. *)
Definition frac (a : Z) (b : positive) : Qc := Q2Qc (a # b).

(** In evaluations [Math.log] is replaced by the tangent of the logarithm
    at 1, [x - 1]: it agrees with the logarithm at [1] and is not positive
    on (0, 1].  [Math.sqrt] is replaced by the identity, which agrees with
    the square root at [0] and [1]. *)
Definition log_tangent (x : Qc) : Qc := x - 1.
Definition sqrt_unit (x : Qc) : Qc := x.

(** The field [dy/dt = -y], without parameters. *)
Definition decay : ODEFunction unit := λ _ y _, Qcopp <$> y.

(** A random source whose every draw is [u]. *)
Definition constant_draws (u : Qc) : Random := mkRandom (λ _, u) 0.

Definition category (damage : Qc) : HurricaneCategory :=
  mkCategory "Category 1" 1 damage.

(** Two species of population [1], extinction threshold fraction [0.01],
    one hurricane category of the given damage, hurricanes at the given
    rate, integration step [1]. *)
Definition island (rate damage : Qc) : SimulationEngine unit :=
  new decay tt [1; 1] (mkConfig rate [category damage] (frac 1 100) 1).

(** One species of population [1] with threshold fraction [1/2] and no
    hurricanes. *)
Definition quiet_island : SimulationEngine unit :=
  new decay tt [1] (mkConfig 0 [category (frac 1 2)] (frac 1 2) 1).

(** Two categories of probability [0.5] each. *)
Definition two_categories : list HurricaneCategory :=
  [mkCategory "Category 1" (frac 1 2) (frac 1 10);
   mkCategory "Category 2" (frac 1 2) (frac 1 2)].

(** The network [B = [[1, 0], [0, 1]]], [S = null], with [m = 1],
    [d = 1], [c = 0]. *)
Definition two_pairs : Network.BipartiteNetwork :=
  Network.mkBipartiteNetwork (Some [[1; 0]; [0; 1]]) None.
Definition two_pairs_params : Network.NetworkParams :=
  Network.mkNetworkParams 1 1 0.

(** A ring of four species with [m = 1/2], [c = -1/10]. *)
Definition ring4 : Ecology.ModelConfig :=
  Ecology.mkModelConfig 4 (frac 1 2) (frac 1 2) (frac (-1) 10) (frac 1 2) None.

(** The parameters of that ring with growth rates [1/4] and half-saturation
    constants [1/2], and a population vector whose first species is gone. *)
Definition ring4_params : Ecology.EcologyParams :=
  Ecology.mkEcologyParams
    (Ecology.generateInteractionMatrices ring4).1
    (Ecology.generateInteractionMatrices ring4).2
    (replicate 4 (frac 1 4)) (replicate 4 (frac 1 2)).
Definition one_gone : list Qc := [0; 1; 1; 1].


(** A heap with the state of an engine after one hurricane: the state at
    0, its populations at 1, the event array at 2, the extinct set at 3,
    the history array at 4, the event at 5, two samples at 6 and 8 with
    their populations at 7 and 9. *)
Definition after_hurricane : Heap.heap :=
  [Heap.StateObj 0 1%nat 2%nat 3%nat 4%nat;
   Heap.Numbers [frac 1 2];
   Heap.Refs [5%nat];
   Heap.SetObj ∅;
   Heap.Refs [6%nat; 8%nat];
   Heap.EventObj 0 "Category 1" (frac 1 2);
   Heap.SampleObj 0 7%nat;
   Heap.Numbers [1];
   Heap.SampleObj 0 9%nat;
   Heap.Numbers [frac 1 2]].



(** The ring of four species, each of population [1], with hurricanes at
    rate [1] that take away [99.5%] of every population. *)
Definition ring_storm : SimulationEngine Ecology.EcologyParams :=
  new Ecology.ecoDynamicsTypeII ring4_params [1; 1; 1; 1]
    (mkConfig 1 [category (frac 995 1000)] (frac 1 100) 1).

(** A random source whose first draw is [u0] and whose later draws are
    [u]. *)
Definition draws_from (u0 u : Qc) : Random :=
  mkRandom (λ n, match n with O => u0 | S _ => u end) 0.

(** Binary64 inputs of [solveODE]: a step that [1] absorbs, and an
    interval whose length, added to its start, rounds above its end. *)
#[warnings="-inexact-float"] Definition absorbed_step : float := 1e-20%float.
#[warnings="-inexact-float"] Definition late_t0 : float := 1.0206936696274276%float.
#[warnings="-inexact-float"] Definition late_t1 : float := 3.1109836338455525%float.
#[warnings="-inexact-float"] Definition late_end : float := 3.110983633845553%float.

End Inputs.

(** * Properties *)

(** ** Arithmetic *)

Lemma Qc_eq_this (x y : Qc) : x = y <-> (this x == this y)%Q.
Proof. split; [intros ->; reflexivity | apply Qc_is_canon]. Qed.

(** Goals of linear (or polynomial) arithmetic over [Qc] are sent to [Q]. *)
Ltac qc_to_Q :=
  repeat match goal with
  | H : @eq Qc _ _ |- _ => apply Qc_eq_this in H
  | H : ~ @eq Qc _ _ |- _ => rewrite Qc_eq_this in H
  end;
  try apply Qc_eq_this;
  unfold Qcle, Qclt, Qcdiv, Qcminus, Qcplus, Qcmult, Qcopp, Qcinv, Q2Qc in *;
  cbn [this] in *;
  repeat (setoid_rewrite Qred_correct);
  repeat match goal with
  | H : _ |- _ => setoid_rewrite Qred_correct in H
  end.

Ltac qc_lra := qc_to_Q; lra.
Ltac qc_nra := qc_to_Q; nra.

(** Closed equalities and comparisons are decided by evaluation. *)
Ltac by_compute := apply (bool_decide_unpack _); vm_compute; exact I.

Lemma Math_min_l a b : a ≤ b → Math_min a b = a.
Proof.
  intros H. unfold Math_min. case_bool_decide; [|done].
  exfalso. by apply (Qclt_not_le b a).
Qed.

Lemma Math_min_r a b : b < a → Math_min a b = b.
Proof. intros H. unfold Math_min. by rewrite bool_decide_eq_true_2. Qed.

Lemma Math_min_cases a b :
  (a ≤ b ∧ Math_min a b = a) ∨ (b < a ∧ Math_min a b = b).
Proof.
  destruct (Qclt_le_dec b a) as [H|H].
  - right. split; [done|]. by apply Math_min_r.
  - left. split; [done|]. by apply Math_min_l.
Qed.




Lemma of_nat_S n : of_nat (S n) = of_nat n + 1.
Proof.
  unfold of_nat. apply Qc_is_canon. cbn [this Qc_of_Z Qcplus Q2Qc].
  rewrite Qred_correct, Nat2Z.inj_succ.
  unfold Z.succ. rewrite inject_Z_plus. reflexivity.
Qed.

Lemma of_nat_0 : of_nat 0 = 0.
Proof. by apply Qc_is_canon. Qed.

Lemma of_nat_nonneg n : 0 ≤ of_nat n.
Proof.
  induction n as [|n IH]; [by rewrite of_nat_0|].
  rewrite of_nat_S. qc_lra.
Qed.

Lemma Qclt_irrefl (x : Qc) : ¬ x < x.
Proof. apply Qcle_not_lt, Qcle_refl. Qed.

Lemma of_nat_to_nat z : (0 ≤ z)%Z → this (of_nat (Z.to_nat z)) = inject_Z z.
Proof. intros Hz. unfold of_nat. cbn [this Qc_of_Z]. by rewrite Z2Nat.id. Qed.

Lemma read_lookup (a : list Qc) i x : a !! i = Some x → read a i = x.
Proof. unfold read. by intros ->. Qed.

(** ** The integrator *)

Section OdeFacts.

Import Ode.

Context {P : Type}.
Implicit Types (f : ODEFunction P) (params : P) (y k : list Qc).

Lemma imap_axpy c y k :
  length k = length y →
  imap (λ i yi, yi + c * read k i) y = vadd y (vscale c k).
Proof.
  intros Hlen. apply list_eq. intros i.
  unfold vadd, vscale.
  rewrite list_lookup_imap, lookup_zip_with, list_lookup_fmap.
  destruct (y !! i) as [yi|] eqn:Hy; [|done].
  destruct (lookup_lt_is_Some_2 k i) as [ki Hk].
  { rewrite Hlen. by eapply lookup_lt_Some. }
  cbn. by rewrite Hk, (read_lookup _ _ _ Hk).
Qed.

Lemma length_vadd y k : length k = length y → length (vadd y k) = length y.
Proof. intros H. unfold vadd. rewrite length_zip_with. lia. Qed.

Lemma length_vscale c k : length (vscale c k) = length k.
Proof. unfold vscale. by rewrite length_fmap. Qed.

Lemma length_rk4Step f t y dt params :
  length (rk4Step f t y dt params) = length y.
Proof. unfold rk4Step. by rewrite length_imap. Qed.

Lemma imap_rk4_combine c y k1 k2 k3 k4 :
  length k1 = length y → length k2 = length y →
  length k3 = length y → length k4 = length y →
  imap (λ i yi,
    yi + c * (read k1 i + 2 * read k2 i + 2 * read k3 i + read k4 i)) y
  = vadd y (vscale c (vadd (vadd (vadd k1 (vscale 2 k2)) (vscale 2 k3)) k4)).
Proof.
  intros H1 H2 H3 H4. apply list_eq. intros i.
  unfold vadd, vscale.
  rewrite list_lookup_imap, lookup_zip_with, list_lookup_fmap.
  rewrite !lookup_zip_with, !list_lookup_fmap.
  destruct (y !! i) as [yi|] eqn:Hy; [|done].
  assert (i < length y)%nat as Hi by (by eapply lookup_lt_Some).
  destruct (lookup_lt_is_Some_2 k1 i) as [a1 Ha1]; [lia|].
  destruct (lookup_lt_is_Some_2 k2 i) as [a2 Ha2]; [lia|].
  destruct (lookup_lt_is_Some_2 k3 i) as [a3 Ha3]; [lia|].
  destruct (lookup_lt_is_Some_2 k4 i) as [a4 Ha4]; [lia|].
  rewrite Ha1, Ha2, Ha3, Ha4. cbn.
  by rewrite (read_lookup _ _ _ Ha1), (read_lookup _ _ _ Ha2),
    (read_lookup _ _ _ Ha3), (read_lookup _ _ _ Ha4).
Qed.

(** C4. For a vector field [f] (its value has the dimension of its
    argument), [rk4Step f t y dt params] is the classical four-stage
    Runge-Kutta update: with [k1 = f(t, y)], [k2 = f(t + dt/2, y + dt/2 k1)],
    [k3 = f(t + dt/2, y + dt/2 k2)], [k4 = f(t + dt, y + dt k3)], the result
    is [y + dt/6 (k1 + 2 k2 + 2 k3 + k4)], componentwise. *)
Theorem rk4Step_is_classical_rk4 f t y dt params :
  (∀ t' y', length (f t' y' params) = length y') →
  rk4Step f t y dt params = rk4_classical f t y dt params.
Proof.
  intros Hf. unfold rk4Step, rk4_classical. cbv zeta.
  set (k1 := f t y params).
  assert (length k1 = length y) as H1 by apply Hf.
  rewrite (imap_axpy (dt / 2) y k1 H1).
  set (k2 := f (t + dt / 2) _ params).
  assert (length k2 = length y) as H2.
  { unfold k2. rewrite Hf. apply length_vadd. by rewrite length_vscale. }
  rewrite (imap_axpy (dt / 2) y k2 H2).
  set (k3 := f (t + dt / 2) _ params).
  assert (length k3 = length y) as H3.
  { unfold k3. rewrite Hf. apply length_vadd. by rewrite length_vscale. }
  rewrite (imap_axpy dt y k3 H3).
  set (k4 := f (t + dt) _ params).
  assert (length k4 = length y) as H4.
  { unfold k4. rewrite Hf. apply length_vadd. by rewrite length_vscale. }
  by apply imap_rk4_combine.
Qed.

(** Extending a chain by one RK4 step from its last sample. *)
Lemma rk4_chain_snoc f t1 dt params acc a :
  rk4_chain f t1 dt params acc →
  last acc = Some a →
  sample_t a < t1 →
  let step := Math_min dt (t1 - sample_t a) in
  rk4_chain f t1 dt params
    (acc ++ [mkSample (sample_t a + step)
               (rk4Step f (sample_t a) (sample_y a) step params)]).
Proof.
  intros Hchain Hlast Hlt step k x z Hx Hz.
  rewrite last_lookup in Hlast.
  assert (k < length acc)%nat as Hk.
  { apply lookup_lt_Some in Hz. rewrite length_app in Hz. cbn in Hz. lia. }
  rewrite lookup_app_l in Hx by done.
  destruct (decide (S k < length acc)%nat) as [Hin|Hout].
  - rewrite lookup_app_l in Hz by done. by apply (Hchain k).
  - assert (S k = length acc) as Hlen by lia.
    replace (pred (length acc)) with k in Hlast by lia.
    rewrite lookup_app_r in Hz by lia.
    replace (S k - length acc)%nat with 0%nat in Hz by lia.
    cbn in Hz. simplify_eq. by cbn.
Qed.

Lemma rk4_chain_singleton f t1 dt params a : rk4_chain f t1 dt params [a].
Proof. intros k x z Hx Hz. by destruct k. Qed.

(** The loop returns as soon as the remaining time fits in [fuel] steps,
    and then its last sample is at [t1]. *)
Lemma solveODE_loop_spec f t1 dt params fuel : ∀ t y acc,
  0 < dt → t ≤ t1 → t1 - t ≤ of_nat fuel * dt →
  last acc = Some (mkSample t y) →
  rk4_chain f t1 dt params acc →
  ∃ sol, solveODE_loop fuel f t y t1 dt params acc = Some sol ∧
    (∃ rest, sol = acc ++ rest) ∧
    rk4_chain f t1 dt params sol ∧
    sample_t <$> last sol = Some t1.
Proof.
  induction fuel as [|fuel IH]; intros t y acc Hdt Hle Hfuel Hlast Hchain.
  - assert (t = t1) as -> by (rewrite of_nat_0 in Hfuel; qc_lra).
    cbn. rewrite bool_decide_eq_false_2 by apply Qclt_irrefl.
    exists acc. split_and!; [done|exists []; by rewrite app_nil_r|done|].
    by rewrite Hlast.
  - cbn. case_bool_decide as Hlt.
    + pose proof (rk4_chain_snoc f t1 dt params acc _ Hchain Hlast Hlt) as Hsnoc.
      cbn in Hsnoc.
      set (step := Math_min dt (t1 - t)) in *.
      destruct (IH (t + step) (rk4Step f t y step params)
                  (acc ++ [mkSample (t + step) (rk4Step f t y step params)]))
        as (sol & Hsol & [rest Hrest] & Hch & Hfin); try done.
      * unfold step. destruct (Math_min_cases dt (t1 - t)) as [[? ->]|[? ->]]; qc_lra.
      * rewrite of_nat_S in Hfuel. unfold step.
        destruct (Math_min_cases dt (t1 - t)) as [[? ->]|[? ->]].
        -- qc_lra.
        -- pose proof (of_nat_nonneg fuel). qc_nra.
      * by rewrite last_snoc.
      * exists sol. split_and!; [done| |done|done].
        eexists. rewrite Hrest, <-app_assoc. done.
    + assert (t = t1) as -> by qc_lra.
      exists acc. split_and!; [done|exists []; by rewrite app_nil_r|done|].
      by rewrite Hlast.
Qed.

(** More fuel does not change what the loop returns. *)
Lemma solveODE_loop_fuel_mono f t1 dt params fuel : ∀ fuel' t y acc sol,
  solveODE_loop fuel f t y t1 dt params acc = Some sol →
  (fuel ≤ fuel')%nat →
  solveODE_loop fuel' f t y t1 dt params acc = Some sol.
Proof.
  induction fuel as [|fuel IH]; intros fuel' t y acc sol Hrun Hle.
  - cbn in Hrun. case_bool_decide as Hlt; [done|].
    destruct fuel'; cbn; by rewrite bool_decide_eq_false_2.
  - destruct fuel' as [|fuel']; [lia|].
    cbn in *. case_bool_decide; [|done].
    apply IH; [done|lia].
Qed.

(** With a step that is not positive the loop never ends. *)
Lemma solveODE_loop_diverges f t1 dt params fuel : ∀ t y acc,
  dt ≤ 0 → t < t1 → solveODE_loop fuel f t y t1 dt params acc = None.
Proof.
  induction fuel as [|fuel IH]; intros t y acc Hdt Hlt; cbn;
    rewrite bool_decide_eq_true_2 by done; [done|].
  apply IH; [done|].
  rewrite Math_min_l by qc_lra. qc_lra.
Qed.

Lemma solveODE_iterations_enough (t0 t1 dt : Qc) :
  t0 < t1 → 0 < dt → t1 - t0 ≤ of_nat (solveODE_iterations t0 t1 dt) * dt.
Proof.
  intros Hlt Hdt. unfold solveODE_iterations.
  set (x := (t1 - t0) / dt).
  assert (0 ≤ x) as Hx.
  { unfold x. apply Qcle_ngt. intros Hneg.
    assert (x * dt = t1 - t0) as Heq.
    { unfold x. field. intros ->. by apply (Qclt_irrefl 0). }
    fold x in Hneg. qc_nra. }
  assert (0 ≤ Qceiling (this x))%Z as Hc.
  { apply Qceiling_resp_le in Hx. exact Hx. }
  assert (x ≤ of_nat (Z.to_nat (Qceiling (this x)))) as Hceil.
  { unfold Qcle. rewrite of_nat_to_nat by done. apply Qle_ceiling. }
  assert (x * dt = t1 - t0) as <-.
  { unfold x. field. intros ->. by apply (Qclt_irrefl 0). }
  by apply Qcmult_le_mono_nonneg_r; [apply Qclt_le_weak|].
Qed.

Lemma solveODE_returns f y0 t0 t1 dt params :
  t0 < t1 → 0 < dt →
  ∃ sol, solveODE f y0 t0 t1 dt params = Some sol ∧
    head sol = Some (mkSample t0 y0) ∧
    rk4_chain f t1 dt params sol ∧
    sample_t <$> last sol = Some t1.
Proof.
  intros Hlt Hdt. unfold solveODE.
  pose proof (Qclt_le_weak _ _ Hlt) as Hle.
  pose proof (solveODE_iterations_enough t0 t1 dt Hlt Hdt) as Hfuel.
  pose proof (rk4_chain_singleton f t1 dt params (mkSample t0 y0)) as Hone.
  destruct (solveODE_loop_spec f t1 dt params (solveODE_iterations t0 t1 dt)
              t0 y0 [mkSample t0 y0] Hdt Hle Hfuel eq_refl Hone)
    as (sol & Hsol & [rest ->] & Hchain & Hlast).
  by exists ([mkSample t0 y0] ++ rest).
Qed.

(** A solver that returns was given a positive step, or nothing to do. *)
Lemma solveODE_Some_dt f y0 t0 t1 dt params sol :
  solveODE f y0 t0 t1 dt params = Some sol → t0 < t1 → 0 < dt.
Proof.
  intros Hsol Hlt. apply Qclt_nge. intros Hdt.
  unfold solveODE in Hsol.
  by rewrite solveODE_loop_diverges in Hsol.
Qed.

(** [solveODE] is [None] only where the loop does not terminate. *)
Lemma solveODE_None_diverges f y0 t0 t1 dt params :
  solveODE f y0 t0 t1 dt params = None →
  ∀ fuel, solveODE_loop fuel f t0 y0 t1 dt params [mkSample t0 y0] = None.
Proof.
  intros Hnone fuel.
  destruct (decide (t0 < t1)) as [Hlt|Hge].
  - destruct (decide (0 < dt)) as [Hdt|Hdt].
    + destruct (solveODE_returns f y0 t0 t1 dt params Hlt Hdt) as (sol & Hsol & _).
      congruence.
    + apply solveODE_loop_diverges; [by apply Qcle_ngt|done].
  - unfold solveODE in Hnone.
    destruct (solveODE_iterations t0 t1 dt); cbn in Hnone;
      by rewrite bool_decide_eq_false_2 in Hnone.
Qed.


(** What one RK4 step preserves, every sample of the solution has. *)
Lemma solveODE_loop_preserves (Q : list Qc → Prop) f t1 dt params :
  (∀ t y h, Q y → Q (rk4Step f t y h params)) →
  ∀ fuel t y acc sol,
    Q y → Forall (λ s, Q (sample_y s)) acc →
    solveODE_loop fuel f t y t1 dt params acc = Some sol →
    Forall (λ s, Q (sample_y s)) sol.
Proof.
  intros HQ. induction fuel as [|fuel IH]; intros t y acc sol Hy Hacc Hrun;
    cbn in Hrun; case_bool_decide; simplify_eq; try done.
  eapply IH; [| |exact Hrun].
  - by apply HQ.
  - apply Forall_app. split; [done|]. apply Forall_singleton. by apply HQ.
Qed.

Lemma solveODE_preserves (Q : list Qc → Prop) f y0 t0 t1 dt params sol :
  (∀ t y h, Q y → Q (rk4Step f t y h params)) →
  Q y0 →
  solveODE f y0 t0 t1 dt params = Some sol →
  Forall (λ s, Q (sample_y s)) sol.
Proof.
  intros HQ Hy0 Hsol. unfold solveODE in Hsol.
  eapply solveODE_loop_preserves; [exact HQ|exact Hy0| |exact Hsol].
  by apply Forall_singleton.
Qed.

End OdeFacts.

(** ** The integrator over binary64 *)

Section Binary64.

Import Ode64 Inputs.

Context {P : Type}.
Implicit Types (f : ODEFunction P) (params : P) (y : list float).

(** A step that the addition absorbs leaves the loop where it is: it
    never ends. *)
Lemma solveODE_loop_stalls f t t1 dt params :
  (t <? t1)%float = true →
  (t + Math_min dt (t1 - t))%float = t →
  ∀ fuel y solution, solveODE_loop fuel f t y t1 dt params solution = None.
Proof.
  intros Hlt Hstall. induction fuel as [|fuel IH]; intros y solution;
    cbn [solveODE_loop]; rewrite Hlt; [done|].
  cbv zeta. rewrite Hstall. apply IH.
Qed.

(** One iteration that reaches or passes [t1] ends the loop, with the
    time that the addition gives. *)
Lemma solveODE_one_step f y0 t0 t1 dt params fuel :
  (t0 <? t1)%float = true →
  (t0 + Math_min dt (t1 - t0) <? t1)%float = false →
  solveODE (S fuel) f y0 t0 t1 dt params =
    Some [mkSample t0 y0;
          mkSample (t0 + Math_min dt (t1 - t0))%float
            (rk4Step f t0 y0 (Math_min dt (t1 - t0)%float) params)].
Proof.
  intros Hlt Hend. unfold solveODE. cbn [solveODE_loop]. rewrite Hlt.
  cbv zeta. destruct fuel; cbn [solveODE_loop]; by rewrite Hend.
Qed.

End Binary64.

(** C3. In binary64 [solveODE] does not always end at [t1], for inputs
    with [t0 < t1] and [dt > 0].  From [t0 = 1] to [t1 = 2] with
    [dt = 1e-20] the sum [1 + 1e-20] is [1]: the time never advances and
    the loop never ends, whatever the field and the state.  From
    [t0 = 1.0206936696274276] to [t1 = 3.1109836338455525] with [dt = 5]
    the one step is [t1 - t0], and [t0 + (t1 - t0)] is
    [3.110983633845553], above [t1]: the call returns two samples, the
    last of them not at [t1]. *)
Theorem solveODE_misses_t1 :
  ((1 <? 2)%float = true ∧ (0 <? Inputs.absorbed_step)%float = true ∧
   ∀ (P : Type) (f : Ode64.ODEFunction P) y0 params fuel,
     Ode64.solveODE fuel f y0 1 2 Inputs.absorbed_step params = None) ∧
  ((Inputs.late_t0 <? Inputs.late_t1)%float = true ∧ (0 <? 5)%float = true ∧
   ∀ (P : Type) (f : Ode64.ODEFunction P) y0 params fuel,
     ∃ y1,
       Ode64.solveODE (S fuel) f y0 Inputs.late_t0 Inputs.late_t1 5 params =
         Some [Ode64.mkSample Inputs.late_t0 y0;
               Ode64.mkSample Inputs.late_end y1] ∧
       Inputs.late_end ≠ Inputs.late_t1 ∧
       (Inputs.late_t1 <? Inputs.late_end)%float = true).
Proof.
  split; (split; [reflexivity|split; [reflexivity|]]);
    intros P f y0 params fuel.
  - unfold Ode64.solveODE. by apply solveODE_loop_stalls.
  - eexists. split; [|split].
    + by apply (solveODE_one_step f y0 Inputs.late_t0 Inputs.late_t1 5).
    + intros Heq.
      apply (f_equal (λ x, (x =? Inputs.late_t1)%float)) in Heq.
      vm_compute in Heq. discriminate.
    + reflexivity.
Qed.

(** ** Interaction matrices *)

Section MatrixFacts.

Lemma cell_map (g : Qc → Qc) (Y : matrix) i j :
  cell (map (map g) Y) i j = g <$> cell Y i j.
Proof.
  unfold cell. change (map (map g) Y) with (map g <$> Y).
  rewrite list_lookup_fmap.
  destruct (Y !! i) as [row|]; [|done]. cbn.
  change (map g row) with (g <$> row). by rewrite list_lookup_fmap.
Qed.





End MatrixFacts.

(** ** The vector field *)

Section FieldFacts.

Import Ode Ecology.

Implicit Types (N y : list Qc) (params : EcologyParams).

(** Absorbing zero, in the field. *)
Lemma ecoDynamicsTypeII_absorbing t N params i x :
  N !! i = Some x → x ≤ 0 → ecoDynamicsTypeII t N params !! i = Some 0.
Proof.
  intros HN Hx. unfold ecoDynamicsTypeII.
  rewrite list_lookup_imap, HN. cbn.
  by rewrite bool_decide_eq_true_2.
Qed.

Lemma length_ecoDynamicsTypeII t N params :
  length (ecoDynamicsTypeII t N params) = length N.
Proof. unfold ecoDynamicsTypeII. by rewrite length_imap. Qed.

Lemma stage_zero (c : Qc) y k i :
  y !! i = Some 0 → k !! i = Some 0 →
  imap (λ i yi, yi + c * read k i) y !! i = Some 0.
Proof.
  intros Hy Hk. rewrite list_lookup_imap, Hy. cbn.
  rewrite (read_lookup _ _ _ Hk). f_equal. ring.
Qed.

(** Absorbing zero, through one RK4 step. *)
Lemma rk4Step_absorbing t y dt params i :
  y !! i = Some 0 →
  rk4Step ecoDynamicsTypeII t y dt params !! i = Some 0.
Proof.
  intros Hy.
  assert (∀ t' y', y' !! i = Some 0 →
            ecoDynamicsTypeII t' y' params !! i = Some 0) as Hf.
  { intros t' y' Hy'. by eapply ecoDynamicsTypeII_absorbing. }
  pose proof (Hf t y Hy) as H1.
  pose proof (Hf (t + dt / 2) _ (stage_zero (dt / 2) y _ i Hy H1)) as H2.
  pose proof (Hf (t + dt / 2) _ (stage_zero (dt / 2) y _ i Hy H2)) as H3.
  pose proof (Hf (t + dt) _ (stage_zero dt y _ i Hy H3)) as H4.
  unfold rk4Step. cbv zeta.
  rewrite list_lookup_imap, Hy. cbn.
  rewrite (read_lookup _ _ _ H1), (read_lookup _ _ _ H2),
    (read_lookup _ _ _ H3), (read_lookup _ _ _ H4).
  f_equal. ring.
Qed.

End FieldFacts.

(** ** The engine *)

Section EngineFacts.

Import Ode Engine.

Variable Math_log : Qc → Qc.
Context {P : Type}.

Implicit Types (e : SimulationEngine P) (rng : Random) (st : SimulationState).

(** *** Shock damage *)

Lemma applyDamage_length D thr : ∀ pops i ext,
  length (applyDamage D thr i pops ext).1 = length pops.
Proof.
  induction pops as [|pop pops IH]; intros i ext; [done|].
  cbn. destruct (belowThreshold thr i _).
  - specialize (IH (S i) ({[i]} ∪ ext)).
    destruct (applyDamage D thr (S i) pops _). cbn in *. by rewrite IH.
  - specialize (IH (S i) ext).
    destruct (applyDamage D thr (S i) pops _). cbn in *. by rewrite IH.
Qed.

Lemma applyDamage_lookup D thr : ∀ pops i0 ext i pop,
  pops !! i = Some pop →
  (applyDamage D thr i0 pops ext).1 !! i =
    Some (if belowThreshold thr (i0 + i) (pop * (1 - D)) then 0
          else pop * (1 - D)).
Proof.
  induction pops as [|p pops IH]; intros i0 ext i pop Hi; [done|].
  cbn. destruct i as [|i].
  - cbn in Hi. injection Hi as ->. rewrite Nat.add_0_r.
    destruct (belowThreshold thr i0 _);
      by destruct (applyDamage D thr (S i0) pops _).
  - cbn in Hi. replace (i0 + S i)%nat with (S i0 + i)%nat by lia.
    destruct (belowThreshold thr i0 _).
    + specialize (IH (S i0) ({[i0]} ∪ ext) i pop Hi).
      by destruct (applyDamage D thr (S i0) pops _).
    + specialize (IH (S i0) ext i pop Hi).
      by destruct (applyDamage D thr (S i0) pops _).
Qed.

Lemma applyDamage_extinct D thr : ∀ pops i0 ext j,
  j ∈ (applyDamage D thr i0 pops ext).2 ↔
  j ∈ ext ∨ ∃ i pop, j = (i0 + i)%nat ∧ pops !! i = Some pop ∧
                     belowThreshold thr j (pop * (1 - D)) = true.
Proof.
  induction pops as [|p pops IH]; intros i0 ext j.
  - cbn. split; [by left|]. intros [?|(i & pop & _ & ? & _)]; done.
  - cbn. destruct (belowThreshold thr i0 (p * (1 - D))) eqn:Hb.
    + specialize (IH (S i0) ({[i0]} ∪ ext) j).
      destruct (applyDamage D thr (S i0) pops _) as [pops' ext']. cbn in *.
      rewrite IH. split.
      * intros [Hj|(i & pop & -> & Hi & Hbelow)].
        -- apply elem_of_union in Hj as [Hj|Hj]; [|by left].
           apply elem_of_singleton in Hj as ->.
           right. exists 0%nat, p. by rewrite Nat.add_0_r.
        -- right. exists (S i), pop.
           split; [lia|]. split; [done|].
           by replace (i0 + S i)%nat with (S i0 + i)%nat by lia.
      * intros [Hj|(i & pop & -> & Hi & Hbelow)].
        -- left. apply elem_of_union. by right.
        -- destruct i as [|i].
           ++ left. rewrite Nat.add_0_r. apply elem_of_union. left.
              by apply elem_of_singleton.
           ++ right. exists i, pop. split; [lia|]. split; [done|].
              by replace (S i0 + i)%nat with (i0 + S i)%nat by lia.
    + specialize (IH (S i0) ext j).
      destruct (applyDamage D thr (S i0) pops _) as [pops' ext']. cbn in *.
      rewrite IH. split.
      * intros [Hj|(i & pop & -> & Hi & Hbelow)]; [by left|].
        right. exists (S i), pop.
        split; [lia|]. split; [done|].
        by replace (i0 + S i)%nat with (S i0 + i)%nat by lia.
      * intros [Hj|(i & pop & -> & Hi & Hbelow)]; [by left|].
        destruct i as [|i].
        -- rewrite Nat.add_0_r in Hbelow. cbn in Hi.
           injection Hi as ->. congruence.
        -- right. exists i, pop. split; [lia|]. split; [done|].
           by replace (S i0 + i)%nat with (i0 + S i)%nat by lia.
Qed.

(** Absorbing zero, through a shock. *)
Lemma applyDamage_absorbing D thr pops ext i :
  pops !! i = Some 0 → (applyDamage D thr 0 pops ext).1 !! i = Some 0.
Proof.
  intros Hi. rewrite (applyDamage_lookup D thr pops 0 ext i 0 Hi).
  destruct (belowThreshold thr _ _); [done|]. f_equal. ring.
Qed.

(** *** The event draw *)



Lemma nextHurricane_inv e duration rng tH rng' :
  nextHurricane Math_log e duration rng = (Some tH, rng') →
  0 < hurricaneRate (config e) ∧ tH = candidate Math_log e rng ∧
  tH ≤ time (state e) + duration ∧ rng' = advance rng.
Proof.
  unfold nextHurricane, randomExponential, Math_random.
  case_bool_decide as Hrate; [|done]. cbn.
  case_bool_decide as Hout; [done|].
  intros [= <- <-]. split_and!; try done.
  by apply Qcle_ngt.
Qed.

(** *** The continuous segment *)

Lemma integrate_skip e tEnd :
  ¬ time (state e) < tEnd → integrate e tEnd = Some (state e).
Proof. intros H. unfold integrate. by rewrite bool_decide_eq_false_2. Qed.

Lemma integrate_inv e tEnd st :
  integrate e tEnd = Some st →
  (¬ time (state e) < tEnd ∧ st = state e) ∨
  (time (state e) < tEnd ∧ 0 < timeStep (config e) ∧
   ∃ sol s,
     solveODE (odeFunction e) (populations (state e)) (time (state e)) tEnd
       (timeStep (config e)) (ecologyParams e) = Some sol ∧
     head sol = Some (mkSample (time (state e)) (populations (state e))) ∧
     rk4_chain (odeFunction e) tEnd (timeStep (config e)) (ecologyParams e) sol ∧
     last sol = Some s ∧ sample_t s = tEnd ∧
     st = {| time := tEnd;
             populations := sample_y s;
             hurricanes := hurricanes (state e);
             extinctSpecies := extinctSpecies (state e);
             history := history (state e) ++ drop 1 sol |}).
Proof.
  unfold integrate. case_bool_decide as Hlt; [|intros [= <-]; by left].
  destruct (solveODE _ _ _ _ _ _) as [sol|] eqn:Hsol; [|done].
  intros [= <-]. right.
  pose proof (solveODE_Some_dt _ _ _ _ _ _ _ Hsol Hlt) as Hdt.
  destruct (solveODE_returns (odeFunction e) (populations (state e))
              (time (state e)) tEnd (timeStep (config e)) (ecologyParams e)
              Hlt Hdt) as (sol' & Hsol' & Hhead & Hchain & Hlast).
  rewrite Hsol in Hsol'. injection Hsol' as <-.
  destruct (last sol) as [s|] eqn:Hs; [|done].
  cbn in Hlast. injection Hlast as Ht.
  split_and!; [done..|]. exists sol, s. by split_and!.
Qed.


(** The segment leaves the event log and the extinct set alone. *)
Lemma integrate_frame e tEnd st :
  integrate e tEnd = Some st →
  hurricanes st = hurricanes (state e) ∧
  extinctSpecies st = extinctSpecies (state e).
Proof.
  intros H. apply integrate_inv in H
    as [[_ ->]|(_ & _ & sol & s & _ & _ & _ & _ & _ & ->)]; done.
Qed.

(** *** One call of [step] *)

Lemma step_unfold duration e rng :
  step Math_log duration e rng =
  match integrate e (default (time (state e) + duration)
                       (nextHurricane Math_log e duration rng).1) with
  | None => Diverged
  | Some st =>
      match (nextHurricane Math_log e duration rng).1 with
      | None =>
          Returned (with_state e st) (nextHurricane Math_log e duration rng).2 None
      | Some eventTime =>
          match drawHurricaneDamage_at
                  (draws rng (S (drawn rng))) (hurricaneCategories (config e)) with
          | Thrown msg => Threw (with_state e st) (advance (advance rng)) msg
          | Ok (category, damage) =>
              Returned
                (with_state e (applyHurricane e st eventTime category damage))
                (advance (advance rng)) (Some eventTime)
          end
      end
  end.
Proof.
  unfold step.
  destruct (nextHurricane Math_log e duration rng) as [[tH|] rng'] eqn:Hnext;
    cbn [fst snd]; [|done].
  apply nextHurricane_inv in Hnext as (_ & _ & _ & ->).
  destruct (integrate e _) as [st|]; [|done].
  unfold drawHurricaneDamage, Math_random, advance. cbn.
  by destruct (drawHurricaneDamage_at _ _) as [[category damage]|msg].
Qed.

(** What a retained event does to the state that the segment left. *)
Lemma applyHurricane_spec e st tH category D :
  let st' := applyHurricane e st tH category D in
  time st' = time st ∧
  hurricanes st' = hurricanes st ++ [mkEvent tH category D] ∧
  populations st' =
    (applyDamage D (extinctionThresholds e) 0 (populations st) (extinctSpecies st)).1 ∧
  extinctSpecies st' =
    (applyDamage D (extinctionThresholds e) 0 (populations st) (extinctSpecies st)).2 ∧
  history st' = history st ++ [mkSample tH (populations st')].
Proof.
  unfold applyHurricane.
  by destruct (applyDamage D (extinctionThresholds e) 0 (populations st)
                 (extinctSpecies st)) as [pops' ext'].
Qed.






(** *** The category draw *)

Lemma cumulative_from_0 c0 cat rest :
  cumulative_from c0 (cat :: rest) 0 = c0 + cat_probability cat.
Proof. unfold cumulative_from. cbn. by rewrite take_0. Qed.

Lemma cumulative_from_S c0 cat rest k :
  cumulative_from c0 (cat :: rest) (S k) =
  cumulative_from (c0 + cat_probability cat) rest k.
Proof. done. Qed.

Lemma drawLoop_first rand : ∀ categories c0 k cat,
  categories !! k = Some cat →
  rand ≤ cumulative_from c0 categories k →
  (∀ j, (j < k)%nat → ¬ rand ≤ cumulative_from c0 categories j) →
  drawLoop rand c0 categories = Some cat.
Proof.
  induction categories as [|c rest IH]; intros c0 k cat Hk Hreach Hfirst;
    [done|].
  cbn [drawLoop]. destruct k as [|k].
  - cbn in Hk. injection Hk as ->. rewrite cumulative_from_0 in Hreach.
    by rewrite bool_decide_eq_true_2.
  - rewrite bool_decide_eq_false_2.
    + apply (IH _ k); [done|by rewrite <-cumulative_from_S|].
      intros j Hj. rewrite <-cumulative_from_S. apply Hfirst. lia.
    + rewrite <-(cumulative_from_0 c0 c rest). apply Hfirst. lia.
Qed.

Lemma drawLoop_none rand : ∀ categories c0,
  (∀ k, (k < length categories)%nat → ¬ rand ≤ cumulative_from c0 categories k) →
  drawLoop rand c0 categories = None.
Proof.
  induction categories as [|c rest IH]; intros c0 Hnone; [done|].
  cbn [drawLoop]. rewrite bool_decide_eq_false_2.
  - apply IH. intros k Hk. rewrite <-cumulative_from_S. apply Hnone. cbn. lia.
  - rewrite <-(cumulative_from_0 c0 c rest). apply Hnone. cbn. lia.
Qed.

(** C8. For a nonempty category list and a draw [U], the category draw
    returns the first category whose cumulative probability (in list
    order) is [>= U], the comparison being inclusive; if the cumulative sum
    stays short of [U] for every category, it returns the last category of
    the list.  The draw is the next value of the random source. *)
Theorem drawHurricaneDamage_first_reaching categories U :
  categories ≠ [] →
  (∀ k cat,
     categories !! k = Some cat →
     U ≤ cumulative categories k →
     (∀ j, (j < k)%nat → ¬ U ≤ cumulative categories j) →
     drawHurricaneDamage_at U categories = Ok (cat_name cat, cat_damage cat)) ∧
  ((∀ k, (k < length categories)%nat → ¬ U ≤ cumulative categories k) →
   ∃ cat, last categories = Some cat ∧
     drawHurricaneDamage_at U categories = Ok (cat_name cat, cat_damage cat)) ∧
  (∀ rng, draws rng (drawn rng) = U →
     drawHurricaneDamage categories rng =
       (drawHurricaneDamage_at U categories, advance rng)).
Proof.
  intros Hne. split_and!.
  - intros k cat Hk Hreach Hfirst. unfold drawHurricaneDamage_at.
    by rewrite (drawLoop_first U categories 0 k cat Hk Hreach Hfirst).
  - intros Hnone. unfold drawHurricaneDamage_at.
    rewrite (drawLoop_none U categories 0 Hnone).
    destruct (last categories) as [cat|] eqn:Hlast; [by exists cat|].
    by apply last_None in Hlast.
  - intros rng <-. done.
Qed.

(** *** Configuration updates *)


(** *** The history log *)

Lemma adjacent_app {A : Type} (R : A → A → Prop) (l1 l2 : list A) x :
  adjacent R l1 → last l1 = Some x → adjacent R (x :: l2) →
  adjacent R (l1 ++ l2).
Proof.
  intros H1 Hlast H2 k a b Ha Hb. rewrite last_lookup in Hlast.
  destruct (decide (S k < length l1)%nat) as [Hin|Hout].
  - rewrite lookup_app_l in Ha by lia. rewrite lookup_app_l in Hb by lia.
    by eapply H1.
  - destruct (decide (k < length l1)%nat) as [Hk|Hk].
    + rewrite lookup_app_l in Ha by lia.
      rewrite lookup_app_r in Hb by lia.
      replace (pred (length l1)) with k in Hlast by lia.
      replace (S k - length l1)%nat with 0%nat in Hb by lia.
      rewrite Hlast in Ha. injection Ha as ->.
      by apply (H2 0%nat a b).
    + rewrite lookup_app_r in Ha by lia. rewrite lookup_app_r in Hb by lia.
      replace (S k - length l1)%nat with (S (k - length l1)) in Hb by lia.
      by apply (H2 (S (k - length l1)) a b).
Qed.


Lemma with_state_state e st : state (with_state e st) = st.
Proof. done. Qed.


Lemma fresh_new (f : ODEFunction P) (params : P) initial cfg :
  fresh (new f params initial cfg).
Proof. done. Qed.

Lemma fresh_reset initial e : fresh (reset initial e).
Proof. by destruct initial. Qed.



Lemma nextHurricane_draws e duration rng :
  draws (nextHurricane Math_log e duration rng).2 = draws rng.
Proof.
  unfold nextHurricane, randomExponential, Math_random.
  case_bool_decide; [|done]. cbn. by case_bool_decide.
Qed.


Section Log.

(** The logarithm is not positive on (0, 1], and the draws are in [0, 1). *)
Hypothesis Math_log_nonpos : ∀ x, 0 < x → x ≤ 1 → Math_log x ≤ 0.

(** The candidate event time is not before the start of the step. *)
Lemma candidate_not_before e rng :
  0 < hurricaneRate (config e) → unit_draws rng →
  time (state e) ≤ candidate Math_log e rng.
Proof.
  intros Hrate Hu. unfold candidate, randomExponential_at.
  destruct (Hu (drawn rng)) as [Hu0 Hu1].
  set (u := draws rng (drawn rng)) in *.
  assert (Math_log (1 - u) ≤ 0) as Hlog.
  { apply Math_log_nonpos; qc_lra. }
  set (L := Math_log (1 - u)) in *.
  assert (0 ≤ - L / hurricaneRate (config e)) as Hwait.
  { unfold Qcdiv. apply Qcmult_nonneg_nonneg; [clear Math_log_nonpos; qc_lra|].
    by apply Qclt_le_weak, Qcinv_pos. }
  set (w := - L / hurricaneRate (config e)) in *.
  clear Math_log_nonpos. qc_lra.
Qed.




End Log.

End EngineFacts.

(** ** Extinction is absorbing *)

Section Absorbing.

Import Ode Ecology Engine.

Variable Math_log : Qc → Qc.

Implicit Types (e : SimulationEngine EcologyParams).

Lemma integrate_absorbing e tEnd st i :
  odeFunction e = ecoDynamicsTypeII →
  populations (state e) !! i = Some 0 →
  integrate e tEnd = Some st →
  populations st !! i = Some 0.
Proof.
  intros Hf Hi Hst. apply integrate_inv in Hst
    as [[_ ->]|(_ & _ & sol & s & Hsol & _ & _ & Hlast & _ & ->)]; [done|].
  cbn. rewrite Hf in Hsol.
  pose proof (solveODE_preserves (λ y, y !! i = Some 0) _ _ _ _ _ _ sol
                (λ t y h, rk4Step_absorbing t y h (ecologyParams e) i)
                Hi Hsol) as Hall.
  rewrite Forall_forall in Hall. apply Hall.
  rewrite last_lookup in Hlast. by eapply list_elem_of_lookup_2.
Qed.

Lemma step_absorbing e duration rng e' rng' r i :
  odeFunction e = ecoDynamicsTypeII →
  populations (state e) !! i = Some 0 →
  step Math_log duration e rng = Returned e' rng' r →
  populations (state e') !! i = Some 0 ∧ odeFunction e' = ecoDynamicsTypeII.
Proof.
  intros Hf Hi. rewrite step_unfold.
  destruct (integrate e _) as [st|] eqn:Hst; [|done].
  pose proof (integrate_absorbing e _ st i Hf Hi Hst) as Hi'.
  destruct (nextHurricane Math_log e duration rng).1 as [tH|].
  - destruct (drawHurricaneDamage_at _ _) as [[category D]|msg]; [|done].
    intros [= <- _ _]. split; [|done]. cbn.
    destruct (applyHurricane_spec e st tH category D) as (_ & _ & -> & _).
    by apply applyDamage_absorbing.
  - by intros [= <- _ _].
Qed.

Lemma run_absorbing durations : ∀ e rng e' rng' r i,
  odeFunction e = ecoDynamicsTypeII →
  populations (state e) !! i = Some 0 →
  run Math_log durations e rng = Returned e' rng' r →
  populations (state e') !! i = Some 0.
Proof.
  induction durations as [|d durations IH]; intros e rng e' rng' r i Hf Hi Hrun.
  - cbn in Hrun. by injection Hrun as <- _ _.
  - cbn in Hrun.
    destruct (step Math_log d e rng) as [e1 rng1 r1| |] eqn:Hstep; [|done..].
    destruct (step_absorbing e d rng e1 rng1 r1 i Hf Hi Hstep) as [Hi1 Hf1].
    by eapply IH.
Qed.

(** C2. Zero population is an absorbing state.  Where [N[i] <= 0], the
    field returns [dN[i] = 0] whatever the other components and the
    parameters; so a component equal to [0] is exactly [0] after an
    [rk4Step] with this field and after the damage of a shock, and it is
    still [0] after any run of steps of an engine that integrates this
    field. *)
Theorem zero_population_absorbing (N : list Qc) i x :
  N !! i = Some x → x ≤ 0 →
  (∀ t params, ecoDynamicsTypeII t N params !! i = Some 0) ∧
  (x = 0 →
   (∀ t dt params, rk4Step ecoDynamicsTypeII t N dt params !! i = Some 0) ∧
   (∀ D thresholds extinct,
      (applyDamage D thresholds 0 N extinct).1 !! i = Some 0) ∧
   (∀ e durations rng e' rng' r,
      odeFunction e = ecoDynamicsTypeII →
      populations (state e) = N →
      run Math_log durations e rng = Returned e' rng' r →
      populations (state e') !! i = Some 0)).
Proof.
  intros HN Hx. split.
  - intros t params. by eapply ecoDynamicsTypeII_absorbing.
  - intros ->. split_and!.
    + intros t dt params. by apply rk4Step_absorbing.
    + intros D thresholds extinct. by apply applyDamage_absorbing.
    + intros e durations rng e' rng' r Hf Hpops Hrun.
      eapply run_absorbing; [exact Hf| |exact Hrun]. by rewrite Hpops.
Qed.

End Absorbing.

(** ** Accessors and object identity *)

Section HeapFacts.

Import Heap.

Lemma extends_app h ext : extends h (h ++ ext).
Proof. intros l o Hl. by apply lookup_app_l_Some. Qed.

Lemma extends_store_fresh h ext l o :
  (length h ≤ l)%nat → extends h (store l o (h ++ ext)).
Proof.
  intros Hl l' o' Hl'. unfold store.
  assert (l' < length h)%nat by (by eapply lookup_lt_Some).
  rewrite list_lookup_insert_ne by lia. by apply lookup_app_l_Some.
Qed.

Lemma readNumbers_extends h h' l xs :
  extends h h' → readNumbers h l = Some xs → readNumbers h' l = Some xs.
Proof.
  intros Hext. unfold readNumbers.
  destruct (h !! l) as [o|] eqn:Hl; [|done].
  by rewrite (Hext l o Hl).
Qed.

Lemma readEvent_extends h h' l ev :
  extends h h' → readEvent h l = Some ev → readEvent h' l = Some ev.
Proof.
  intros Hext. unfold readEvent.
  destruct (h !! l) as [o|] eqn:Hl; [|done].
  by rewrite (Hext l o Hl).
Qed.

Lemma readSet_extends h h' l X :
  extends h h' → readSet h l = Some X → readSet h' l = Some X.
Proof.
  intros Hext. unfold readSet.
  destruct (h !! l) as [o|] eqn:Hl; [|done].
  by rewrite (Hext l o Hl).
Qed.

Lemma readSample_extends h h' l s :
  extends h h' → readSample h l = Some s → readSample h' l = Some s.
Proof.
  intros Hext. unfold readSample.
  destruct (h !! l) as [o|] eqn:Hl; [|done].
  rewrite (Hext l o Hl). destruct o; try done.
  destruct (readNumbers h y) as [ys|] eqn:Hy; [|done].
  by rewrite (readNumbers_extends h h' y ys Hext Hy).
Qed.

Lemma readRefs_extends {A : Type} (readElem : heap → loc → option A)
    h h' l xs :
  extends h h' →
  (∀ l x, readElem h l = Some x → readElem h' l = Some x) →
  readRefs h readElem l = Some xs → readRefs h' readElem l = Some xs.
Proof.
  intros Hext Helem. unfold readRefs.
  destruct (h !! l) as [o|] eqn:Hl; [|done].
  rewrite (Hext l o Hl). destruct o; try done.
  rewrite !mapM_Some. intros Hall.
  eapply Forall2_impl; [exact Hall|]. intros l' x. apply Helem.
Qed.

(** The engine reads the same state from every heap that extends its
    own. *)
Lemma view_extends h h' state st :
  extends h h' → view h state = Some st → view h' state = Some st.
Proof.
  intros Hext. unfold view.
  destruct (h !! state) as [o|] eqn:Hl; [|done].
  rewrite (Hext state o Hl). destruct o; try done.
  destruct (readNumbers h populations) as [pops|] eqn:Hp; [|done].
  rewrite (readNumbers_extends _ _ _ _ Hext Hp). cbn.
  destruct (readRefs h readEvent hurricanes) as [events|] eqn:He; [|done].
  rewrite (readRefs_extends readEvent h h' _ _ Hext
             (λ l x, readEvent_extends h h' l x Hext) He). cbn.
  destruct (readSet h extinctSpecies) as [extinct|] eqn:Hs; [|done].
  rewrite (readSet_extends _ _ _ _ Hext Hs). cbn.
  destruct (readRefs h readSample history) as [samples|] eqn:Hh; [|done].
  by rewrite (readRefs_extends readSample h h' _ _ Hext
                (λ l x, readSample_extends h h' l x Hext) Hh).
Qed.

Lemma allocates_ret {A : Type} (a : A) : allocates (ret a).
Proof. intros h a' h' [= _ <-]. exists []. by rewrite app_nil_r. Qed.

Lemma allocates_fail {A : Type} : allocates (@fail A).
Proof. by intros h a h'. Qed.

Lemma allocates_get l : allocates (get l).
Proof.
  intros h o h'. unfold get. destruct (h !! l); [|done].
  intros [= _ <-]. exists []. by rewrite app_nil_r.
Qed.

Lemma allocates_alloc o : allocates (alloc o).
Proof. intros h l h' [= _ <-]. by exists [o]. Qed.

Lemma allocates_bind {A B : Type} (m : M A) (k : A → M B) :
  allocates m → (∀ a, allocates (k a)) → allocates (bind m k).
Proof.
  intros Hm Hk h b h'. unfold bind.
  destruct (m h) as [[a h1]|] eqn:Hrun; [|done].
  intros Hrun'. destruct (Hm _ _ _ Hrun) as [ext1 ->].
  destruct (Hk a _ _ _ Hrun') as [ext2 ->].
  exists (ext1 ++ ext2). by rewrite app_assoc.
Qed.

Lemma allocates_mapHeap {A B : Type} (f : A → M B) (xs : list A) :
  (∀ x, allocates (f x)) → allocates (mapHeap f xs).
Proof.
  intros Hf. induction xs as [|x xs IH]; [apply allocates_ret|].
  cbn. apply allocates_bind; [apply Hf|]. intros y.
  apply allocates_bind; [apply IH|]. intros ys. apply allocates_ret.
Qed.

Create HintDb allocates.

#[local] Hint Resolve allocates_ret allocates_fail allocates_get
  allocates_alloc : allocates.

Ltac allocates_step :=
  match goal with
  | |- allocates (bind _ _) => apply allocates_bind; [|intros ?]
  | |- allocates (mapHeap _ _) => apply allocates_mapHeap; intros ?
  | |- allocates (match ?o with _ => _ end) => destruct o
  | |- allocates _ => solve [auto with allocates]
  end.

Lemma allocates_copyNumbers l : allocates (copyNumbers l).
Proof. unfold copyNumbers. repeat allocates_step. Qed.

Lemma allocates_copyRefs l : allocates (copyRefs l).
Proof. unfold copyRefs. repeat allocates_step. Qed.

Lemma allocates_copySet l : allocates (copySet l).
Proof. unfold copySet. repeat allocates_step. Qed.

#[local] Hint Resolve allocates_copyNumbers allocates_copyRefs
  allocates_copySet : allocates.

Lemma allocates_copySample l : allocates (copySample l).
Proof. unfold copySample. repeat allocates_step. Qed.

#[local] Hint Resolve allocates_copySample : allocates.

Lemma allocates_getState state : allocates (getState state).
Proof. unfold getState. repeat allocates_step. Qed.

Lemma allocates_getPopulations state : allocates (getPopulations state).
Proof. unfold getPopulations. repeat allocates_step. Qed.

Lemma allocates_getHurricanes state : allocates (getHurricanes state).
Proof. unfold getHurricanes. repeat allocates_step. Qed.

(** What the accessors allocate is the caller's: an assignment to any
    object that an accessor created leaves the state of the engine as it
    was. *)
Lemma fresh_objects_independent {A : Type} (m : M A) h state st a h1 l o :
  allocates m →
  view h state = Some st →
  m h = Some (a, h1) →
  (length h ≤ l)%nat →
  view (store l o h1) state = Some st.
Proof.
  intros Hm Hview Hrun Hl. destruct (Hm _ _ _ Hrun) as [ext ->].
  eapply view_extends; [|exact Hview]. by apply extends_store_fresh.
Qed.

(** [getHurricanes()] returns a new array of the engine's own event
    objects, whatever the state. *)
Lemma getHurricanes_elements h state time populations hurricanes extinct
    history ls :
  h !! state = Some (StateObj time populations hurricanes extinct history) →
  h !! hurricanes = Some (Refs ls) →
  getHurricanes state h = Some (length h, h ++ [Refs ls]).
Proof.
  intros Hstate Hevents. unfold getHurricanes, copyRefs, bind, get.
  rewrite Hstate. cbn. by rewrite Hevents.
Qed.

End HeapFacts.

(** ** Evaluations *)

Section Evaluations.

Import Ode Engine Inputs.

(** A draw of [0] gives the waiting time [-log(1) / rate = 0], where
    [log_tangent] is the logarithm: the hurricane arrives at once and the
    step is the shock alone.

    The scenarios of the specification: populations [[1, 1]] with
    thresholds [0.01]; a damage of [0.9] leaves [[0.1, 0.1]] and nobody
    extinct, a damage of [0.995] leaves [[0, 0]] and both species extinct. *)
Example shock_application :
  final (step log_tangent 1 (island 1 (frac 9 10)) (constant_draws 0)) =
  Some (mkState 0 [frac 1 10; frac 1 10]
          [mkEvent 0 "Category 1" (frac 9 10)] ∅
          [mkSample 0 [1; 1]; mkSample 0 [frac 1 10; frac 1 10]]).
Proof. by_compute. Qed.

Example shock_causing_extinction :
  final (step log_tangent 1 (island 1 (frac 995 1000)) (constant_draws 0)) =
  Some (mkState 0 [0; 0]
          [mkEvent 0 "Category 1" (frac 995 1000)] {[0%nat; 1%nat]}
          [mkSample 0 [1; 1]; mkSample 0 [0; 0]]).
Proof. by_compute. Qed.

(** A draw of [1/2]: the event is at [1/2], after one RK4 step of that
    size; the samples before and after the shock are both at [1/2]. *)
Example shock_after_integration :
  (map sample_t ∘ history) <$>
    final (step log_tangent 1 (island 1 (frac 9 10)) (constant_draws (frac 1 2))) =
  Some [0; frac 1 2; frac 1 2].
Proof. by_compute. Qed.

(** Without hurricanes one step of size [1] takes a population of [1] to
    [3/8], below the threshold [1/2]; it is stored as it is and nobody is
    extinct. *)
Example decline_without_extinction :
  final (step log_tangent 1 quiet_island (constant_draws 0)) =
  Some (mkState 1 [frac 3 8] [] ∅ [mkSample 0 [1]; mkSample 1 [frac 3 8]]).
Proof. by_compute. Qed.

(** One RK4 step of the Lotka-Volterra field on a ring of four species
    of which the first is gone: it stays at [0], the others move. *)
Example one_gone_stays_gone :
  bool_decide
    (rk4Step Ecology.ecoDynamicsTypeII 0 one_gone (frac 1 2) ring4_params !! 0%nat
       = Some 0) = true ∧
  bool_decide
    (rk4Step Ecology.ecoDynamicsTypeII 0 one_gone (frac 1 2) ring4_params !! 1%nat
       = Some 1) = false.
Proof. split; vm_compute; reflexivity. Qed.

(** [solveODE] from [0] to [1] with [dt = 0.3]: three full steps and one
    of [0.1]. *)
Example solveODE_times :
  map sample_t <$> solveODE decay [1] 0 1 (frac 3 10) tt =
  Some [0; frac 3 10; frac 6 10; frac 9 10; 1].
Proof. by_compute. Qed.

(** With a step that is not positive the solver does not return. *)
Example solveODE_zero_step fuel :
  solveODE_loop fuel decay 0 [1] 1 0 tt [mkSample 0 [1]] = None.
Proof. apply solveODE_loop_diverges; by_compute. Qed.

(** Probabilities [[0.5, 0.5]] and a draw of [0.5] select the first
    category; a draw above the total selects the last one. *)
Example category_draw_boundary :
  drawHurricaneDamage_at (frac 1 2) two_categories =
  Ok ("Category 1", frac 1 10).
Proof. reflexivity. Qed.

Example category_draw_fallback :
  drawHurricaneDamage_at (frac 3 2) two_categories =
  Ok ("Category 2", frac 1 2).
Proof. reflexivity. Qed.

(** No category at all: the draw throws. *)
Example category_draw_empty :
  drawHurricaneDamage_at (frac 1 2) [] =
  Thrown "TypeError: cannot read properties of undefined".
Proof. reflexivity. Qed.

(** The matrices of the network [B = [[1, 0], [0, 1]]]. *)
Example two_pairs_matrices :
  match Network.buildInteractionMatrix sqrt_unit two_pairs two_pairs_params with
  | Ok out => Some (Network.out_Y_mut out, Network.out_Y_comp out,
                    Network.out_nSpecies out)
  | Thrown _ => None
  end =
  Some ([[0; 0; 1; 0]; [0; 0; 0; 1]; [1; 0; 0; 0]; [0; 1; 0; 0]],
        [[0; 0; 0; 0]; [0; 0; 0; 0]; [0; 0; 0; 0]; [0; 0; 0; 0]],
        4%nat).
Proof. by_compute. Qed.

(** Without a matrix, and with an empty one, the builder throws. *)
Example no_network :
  Network.buildInteractionMatrix sqrt_unit
    (Network.mkBipartiteNetwork None None) two_pairs_params =
  Thrown "At least one biadjacency matrix (B or S) must be provided".
Proof. reflexivity. Qed.

Example empty_network :
  Network.buildInteractionMatrix sqrt_unit
    (Network.mkBipartiteNetwork (Some []) None) two_pairs_params =
  Thrown "TypeError: cannot read properties of undefined".
Proof. reflexivity. Qed.

(** *** The theorems at concrete inputs *)

Lemma log_tangent_nonpos x : 0 < x → x ≤ 1 → log_tangent x ≤ 0.
Proof. intros H0 H1. unfold log_tangent. qc_lra. Defined.

Lemma constant_draws_unit u : 0 ≤ u → u < 1 → unit_draws (constant_draws u).
Proof. intros H0 H1 n. by split. Defined.


Lemma zero_population_absorbing_witness :
  Ecology.ecoDynamicsTypeII 0 one_gone ring4_params !! 0%nat = Some 0 ∧
  rk4Step Ecology.ecoDynamicsTypeII 0 one_gone (frac 1 2) ring4_params !! 0%nat
    = Some 0 ∧
  (applyDamage (frac 1 2) [frac 1 100] 0 one_gone ∅).1 !! 0%nat = Some 0.
Proof.
  destruct (zero_population_absorbing log_tangent one_gone 0 0 eq_refl)
    as [Hfield Hzero].
  - by_compute.
  - destruct (Hzero eq_refl) as (Hrk4 & Hshock & _).
    exact (conj (Hfield _ _) (conj (Hrk4 _ _ _) (Hshock _ _ _))).
Defined.

Lemma rk4Step_is_classical_rk4_witness :
  rk4Step decay 0 [1; 2] (frac 1 2) tt = rk4_classical decay 0 [1; 2] (frac 1 2) tt.
Proof.
  apply rk4Step_is_classical_rk4.
  intros t' y'. unfold decay. apply length_fmap.
Defined.




Lemma drawHurricaneDamage_first_reaching_witness :
  drawHurricaneDamage_at (frac 1 2) two_categories = Ok ("Category 1", frac 1 10).
Proof.
  destruct (drawHurricaneDamage_first_reaching two_categories (frac 1 2))
    as (Hfirst & _ & _).
  - discriminate.
  - apply (Hfirst 0%nat (mkCategory "Category 1" (frac 1 2) (frac 1 10))).
    + reflexivity.
    + by_compute.
    + intros j Hj. lia.
Defined.


(** *** Where the code departs from the statements *)



(** C9 fails on the event records.  [getHurricanes()] returns a new
    array (at location 10) whose element is the engine's own event object
    (at location 5): an assignment to the [damage] field of the first
    element of the returned array changes the hurricane log that the
    engine holds. *)
Lemma getHurricanes_shares_event_records :
  ∃ events h1,
    Heap.getHurricanes 0%nat after_hurricane = Some (events, h1) ∧
    events = 10%nat ∧
    h1 !! events = Some (Heap.Refs [5%nat]) ∧
    5%nat ∈ Heap.reachable h1 events ∧
    hurricanes <$> Heap.view h1 0%nat
      = Some [mkEvent 0 "Category 1" (frac 1 2)] ∧
    hurricanes <$>
      Heap.view (Heap.store 5%nat (Heap.EventObj 0 "Category 1" 1) h1) 0%nat
      = Some [mkEvent 0 "Category 1" 1].
Proof.
  eexists _, _. split; [vm_compute; reflexivity|].
  split_and!; [reflexivity|reflexivity|by_compute|by_compute|by_compute].
Qed.

(** The same through [getState()]: the [hurricanes] array of the returned
    state (at location 11) holds the engine's event object. *)
Lemma getState_shares_event_records :
  ∃ copy h1,
    Heap.getState 0%nat after_hurricane = Some (copy, h1) ∧
    h1 !! copy = Some (Heap.StateObj 0 10%nat 11%nat 12%nat 17%nat) ∧
    h1 !! 11%nat = Some (Heap.Refs [5%nat]) ∧
    filter (λ l, l < length after_hurricane)%nat (Heap.reachable h1 copy)
      = [5%nat] ∧
    hurricanes <$>
      Heap.view (Heap.store 5%nat (Heap.EventObj 0 "Category 1" 1) h1) 0%nat
      = Some [mkEvent 0 "Category 1" 1].
Proof.
  eexists _, _. split; [vm_compute; reflexivity|].
  split_and!; [reflexivity|reflexivity|by_compute|by_compute].
Qed.

End Evaluations.

(** * Further properties of the code *)

(** ** The integrator *)

Section OdeMore.

Import Ode Fields.

Context {P : Type}.
Implicit Types (f : ODEFunction P) (params : P) (y k : list Qc).

Lemma solveODE_nothing_to_do f y0 t0 t1 dt params :
  t1 ≤ t0 → solveODE f y0 t0 t1 dt params = Some [mkSample t0 y0].
Proof.
  intros Hle. unfold solveODE.
  destruct (solveODE_iterations t0 t1 dt); cbn;
    rewrite bool_decide_eq_false_2; try done; by apply Qcle_not_lt.
Qed.

(** X1. With nothing to integrate ([t1 <= t0]) [solveODE] returns the
    initial sample alone, whatever the step, positive or not. *)
Theorem solveODE_empty_interval f y0 t0 t1 dt params :
  t1 ≤ t0 → solveODE f y0 t0 t1 dt params = Some [mkSample t0 y0].
Proof. apply solveODE_nothing_to_do. Qed.

(** X2. With a step that is not positive and [t0 < t1] the loop of
    [solveODE] never ends: no number of iterations makes it return. *)
Theorem solveODE_nonpositive_step_diverges f y0 t0 t1 dt params :
  t0 < t1 → dt ≤ 0 →
  solveODE f y0 t0 t1 dt params = None ∧
  ∀ fuel, solveODE_loop fuel f t0 y0 t1 dt params [mkSample t0 y0] = None.
Proof.
  intros Hlt Hdt.
  assert (∀ fuel, solveODE_loop fuel f t0 y0 t1 dt params [mkSample t0 y0] = None)
    as Hall by (intros fuel; by apply solveODE_loop_diverges).
  split; [apply Hall|exact Hall].
Qed.






Lemma read_replicate_zero n i : read (replicate n 0) i = 0.
Proof.
  unfold read. destruct (replicate n (Q2Qc 0) !! i) as [x|] eqn:Hx; [|done].
  apply lookup_replicate in Hx as [-> _]. done.
Qed.

Lemma imap_add_zeros (c : Qc) y n :
  imap (λ i yi, yi + c * read (replicate n 0) i) y = y.
Proof.
  apply list_eq. intros i. rewrite list_lookup_imap.
  destruct (y !! i) as [yi|]; [|done]. cbn.
  rewrite read_replicate_zero. f_equal. ring.
Qed.

(** X5. An equilibrium of the field is a fixed point of the step: where
    the field vanishes at [y] at all times, [rk4Step] returns [y], whatever
    the step size. *)
Theorem rk4Step_equilibrium f t y dt params :
  (∀ t', f t' y params = replicate (length y) 0) →
  rk4Step f t y dt params = y.
Proof.
  intros Hzero. unfold rk4Step. cbv zeta.
  repeat (rewrite Hzero || rewrite imap_add_zeros).
  apply list_eq. intros i. rewrite list_lookup_imap.
  destruct (y !! i) as [yi|]; [|done]. cbn.
  rewrite read_replicate_zero. f_equal. ring.
Qed.

End OdeMore.

Section LinearField.

Import Ode Fields.

Lemma read_fmap_lookup (g : Qc → Qc) (y : list Qc) i yi :
  y !! i = Some yi → read (g <$> y) i = g yi.
Proof. intros Hy. apply read_lookup. by rewrite list_lookup_fmap, Hy. Qed.



End LinearField.

(** ** The engine *)

Section EngineMore.

Import Ode Engine Invariants.

Variable Math_log : Qc → Qc.
Context {P : Type}.

Implicit Types (e : SimulationEngine P) (rng : Random) (st : SimulationState).

(** The two ways in which a call of [step] returns. *)
Lemma step_inv duration e rng e' rng' r :
  step Math_log duration e rng = Returned e' rng' r →
  (r = None ∧
   (nextHurricane Math_log e duration rng).1 = None ∧
   ∃ st, integrate e (time (state e) + duration) = Some st ∧
         e' = with_state e st) ∨
  (∃ tH st category D,
     r = Some tH ∧
     nextHurricane Math_log e duration rng = (Some tH, advance rng) ∧
     integrate e tH = Some st ∧
     drawHurricaneDamage_at (draws rng (S (drawn rng)))
       (hurricaneCategories (config e)) = Ok (category, D) ∧
     e' = with_state e (applyHurricane e st tH category D)).
Proof.
  rewrite step_unfold.
  destruct (nextHurricane Math_log e duration rng) as [[tH|] rng1] eqn:Hnext;
    cbn [fst snd default from_option id].
  - destruct (integrate e tH) as [st|] eqn:Hst; [|done].
    destruct (drawHurricaneDamage_at _ _) as [[category D]|msg] eqn:Hdraw; [|done].
    intros [= <- <- <-]. right. exists tH, st, category, D.
    apply nextHurricane_inv in Hnext as (_ & _ & _ & ->). by split_and!.
  - destruct (integrate e _) as [st|] eqn:Hst; [|done].
    intros [= <- <- <-]. left. split_and!; [done..|]. by exists st.
Qed.

(** A run changes nothing of the engine but its state. *)
Lemma run_with_state durations : ∀ e rng e' rng' r,
  run Math_log durations e rng = Returned e' rng' r →
  ∃ st, e' = with_state e st.
Proof.
  induction durations as [|d durations IH]; intros e rng e' rng' r Hrun.
  - cbn in Hrun. injection Hrun as <- _ _. exists (state e). by destruct e.
  - cbn in Hrun.
    destruct (step Math_log d e rng) as [e1 rng1 r1| |] eqn:Hstep; [|done..].
    destruct (IH _ _ _ _ _ Hrun) as [st ->].
    apply step_inv in Hstep
      as [(_ & _ & st1 & _ & ->)|(tH & st1 & c & D & _ & _ & _ & _ & ->)];
      by exists st.
Qed.

Lemma applyDamage_extinct_mono D thr pops i0 ext :
  ext ⊆ (applyDamage D thr i0 pops ext).2.
Proof. intros j Hj. apply applyDamage_extinct. by left. Qed.

Lemma step_extinct_mono duration e rng e' rng' r :
  step Math_log duration e rng = Returned e' rng' r →
  extinctSpecies (state e) ⊆ extinctSpecies (state e').
Proof.
  intros Hstep. apply step_inv in Hstep
    as [(_ & _ & st & Hst & ->)|(tH & st & c & D & _ & _ & Hst & _ & ->)];
    destruct (integrate_frame e _ st Hst) as [_ Hext]; cbn.
  - by rewrite Hext.
  - destruct (applyHurricane_spec e st tH c D) as (_ & _ & _ & -> & _).
    rewrite <-Hext. apply applyDamage_extinct_mono.
Qed.

(** X7. Extinction is for good: over any sequence of [step] calls that
    return, the extinct set only gains indices. *)
Theorem extinct_set_grows durations : ∀ e rng e' rng' r,
  run Math_log durations e rng = Returned e' rng' r →
  extinctSpecies (state e) ⊆ extinctSpecies (state e').
Proof.
  induction durations as [|d durations IH]; intros e rng e' rng' r Hrun.
  - cbn in Hrun. by injection Hrun as <- _ _.
  - cbn in Hrun.
    destruct (step Math_log d e rng) as [e1 rng1 r1| |] eqn:Hstep; [|done..].
    etrans; [by eapply step_extinct_mono|by eapply IH].
Qed.

Lemma integrate_dimension n e tEnd st :
  dimension n (state e) → integrate e tEnd = Some st → dimension n st.
Proof.
  intros [Hpops Hhist] Hst. apply integrate_inv in Hst
    as [[_ ->]|(_ & _ & sol & s & Hsol & _ & _ & Hlast & _ & ->)]; [done|].
  assert (Forall (λ s, length (sample_y s) = n) sol) as Hsamples.
  { apply (solveODE_preserves (λ y, length y = n) (odeFunction e)
             (populations (state e)) (time (state e)) tEnd
             (timeStep (config e)) (ecologyParams e) sol);
      [|exact Hpops|exact Hsol].
    intros t y h Hy. by rewrite length_rk4Step. }
  split; cbn.
  - rewrite Forall_forall in Hsamples. apply Hsamples.
    rewrite last_lookup in Hlast. by eapply list_elem_of_lookup_2.
  - apply Forall_app. split; [done|]. by apply Forall_drop.
Qed.

Lemma applyHurricane_dimension n e st tH category D :
  dimension n st → dimension n (applyHurricane e st tH category D).
Proof.
  intros [Hpops Hhist].
  destruct (applyHurricane_spec e st tH category D)
    as (_ & _ & Hpops' & _ & Hhist').
  assert (length (populations (applyHurricane e st tH category D)) = n) as Hlen.
  { by rewrite Hpops', applyDamage_length. }
  split; [done|]. rewrite Hhist'. apply Forall_app. split; [done|].
  by apply Forall_singleton.
Qed.

Lemma run_dimension n durations : ∀ e rng e' rng' r,
  dimension n (state e) →
  run Math_log durations e rng = Returned e' rng' r →
  dimension n (state e').
Proof.
  induction durations as [|d durations IH]; intros e rng e' rng' r Hdim Hrun.
  - cbn in Hrun. by injection Hrun as <- _ _.
  - cbn in Hrun.
    destruct (step Math_log d e rng) as [e1 rng1 r1| |] eqn:Hstep; [|done..].
    eapply IH; [|exact Hrun].
    apply step_inv in Hstep
      as [(_ & _ & st & Hst & ->)|(tH & st & c & D & _ & _ & Hst & _ & ->)]; cbn.
    + by eapply integrate_dimension.
    + apply applyHurricane_dimension. by eapply integrate_dimension.
Qed.

(** X8. The dimension of the system never changes: after any run of
    steps of an engine as constructed or reset, the populations and every
    sample of the history have as many components as the initial
    populations, whatever the field returns. *)
Theorem dimension_is_kept e0 durations rng e' rng' r :
  fresh e0 →
  run Math_log durations e0 rng = Returned e' rng' r →
  dimension (length (initialPopulations e0)) (state e').
Proof.
  intros Hfresh Hrun. eapply run_dimension; [|exact Hrun].
  rewrite Hfresh. split; cbn; [done|]. by apply Forall_singleton.
Qed.

(** X9. [reset()] undoes a run: after any sequence of steps of an engine
    as constructed or reset, a reset without argument gives back that
    engine, with its configuration, parameters and thresholds. *)
Theorem reset_undoes_run e0 durations rng e' rng' r :
  fresh e0 →
  run Math_log durations e0 rng = Returned e' rng' r →
  reset None e' = e0.
Proof.
  intros Hfresh Hrun. destruct (run_with_state _ _ _ _ _ _ Hrun) as [st ->].
  unfold fresh in Hfresh. destruct e0. cbn in *. unfold reset. cbn.
  by rewrite Hfresh.
Qed.

Lemma step_draws duration e rng e' rng' r :
  step Math_log duration e rng = Returned e' rng' r → draws rng' = draws rng.
Proof.
  rewrite step_unfold.
  destruct (integrate e _) as [st|]; [|done].
  destruct ((nextHurricane Math_log e duration rng).1) as [tH|] eqn:Hnext.
  - destruct (drawHurricaneDamage_at _ _) as [[category D]|msg]; [|done].
    by intros [= _ <- _].
  - intros [= _ <- _]. apply nextHurricane_draws.
Qed.

Lemma adjacent_snoc {A : Type} (R : A → A → Prop) (l : list A) (y : A) :
  adjacent R l → (∀ x, last l = Some x → R x y) → adjacent R (l ++ [y]).
Proof.
  intros Hl Hlast. destruct (last l) as [x|] eqn:Hx.
  - eapply adjacent_app; [exact Hl|exact Hx|].
    intros k a b Ha Hb. destruct k as [|[|k]]; [|done..].
    cbn in Ha, Hb. injection Ha as <-. injection Hb as <-. by apply Hlast.
  - apply last_None in Hx as ->. intros k a b Ha Hb. by destruct k.
Qed.

Section Clock.

Hypothesis Math_log_nonpos : ∀ x, 0 < x → x ≤ 1 → Math_log x ≤ 0.

Lemma step_clock duration e rng e' rng' r :
  unit_draws rng →
  step Math_log duration e rng = Returned e' rng' r →
  match r with
  | None =>
      time (state e') =
        if bool_decide (0 < duration) then time (state e) + duration
        else time (state e)
  | Some eventTime =>
      time (state e') = eventTime ∧
      time (state e) ≤ eventTime ∧ eventTime ≤ time (state e) + duration
  end.
Proof.
  intros Hu Hstep. apply step_inv in Hstep
    as [(-> & _ & st & Hst & ->)|(tH & st & c & D & -> & Hnext & Hst & _ & ->)].
  - cbn. apply integrate_inv in Hst
      as [[Hge ->]|(Hlt & _ & sol & s & _ & _ & _ & _ & _ & ->)].
    + rewrite bool_decide_eq_false_2; [done|]. intros Hpos. apply Hge. qc_lra.
    + cbn. rewrite bool_decide_eq_true_2; [done|]. qc_lra.
  - apply nextHurricane_inv in Hnext as (Hrate & -> & Hin & _).
    pose proof (candidate_not_before Math_log Math_log_nonpos e rng Hrate Hu)
      as Hafter.
    cbn. destruct (applyHurricane_spec e st (candidate Math_log e rng) c D)
      as (-> & _).
    split_and!; [|done..].
    apply integrate_inv in Hst
      as [[Hge ->]|(_ & _ & sol & s & _ & _ & _ & _ & _ & ->)]; [|done].
    apply Qcle_antisym; [done|]. by apply Qcle_ngt.
Qed.

(** X10. What [step] returns is where the clock stands.  When it returns
    [null] the time has advanced by [duration] if that is positive and
    not at all otherwise; when it returns an event time, that is the new
    time, within the step. *)
Theorem step_time duration e rng e' rng' r :
  unit_draws rng →
  step Math_log duration e rng = Returned e' rng' r →
  match r with
  | None =>
      time (state e') =
        if bool_decide (0 < duration) then time (state e) + duration
        else time (state e)
  | Some eventTime =>
      time (state e') = eventTime ∧
      time (state e) ≤ eventTime ∧ eventTime ≤ time (state e) + duration
  end.
Proof. by apply step_clock. Qed.

Lemma step_event_log duration e rng e' rng' r :
  unit_draws rng →
  event_log_ordered (state e) →
  step Math_log duration e rng = Returned e' rng' r →
  event_log_ordered (state e') ∧
  hurricanes (state e) `prefix_of` hurricanes (state e') ∧
  time (state e) ≤ time (state e').
Proof.
  intros Hu [Hsorted Hbound] Hstep.
  pose proof (step_clock duration e rng e' rng' r Hu Hstep) as Htime.
  apply step_inv in Hstep
    as [(-> & _ & st & Hst & ->)|(tH & st & c & D & -> & _ & Hst & _ & ->)];
    destruct (integrate_frame e _ st Hst) as [Hhur _]; cbn in *.
  - assert (time (state e) ≤ time st) as Hmono.
    { rewrite Htime. case_bool_decide; [qc_lra|apply Qcle_refl]. }
    rewrite Hhur. split_and!; [|done|done].
    split; rewrite Hhur; [done|].
    intros ev Hev. etrans; [by apply Hbound|done].
  - destruct Htime as (Ht & Hlo & _).
    destruct (applyHurricane_spec e st tH c D) as (_ & Hhur' & _).
    rewrite Hhur', Hhur. split_and!; [|by apply prefix_app_r|by rewrite Ht].
    split; rewrite Hhur', Hhur.
    + apply adjacent_snoc; [done|]. intros x Hx. cbn.
      etrans; [apply Hbound|done].
      rewrite last_lookup in Hx. by eapply list_elem_of_lookup_2.
    + intros ev Hev. rewrite Ht.
      apply elem_of_app in Hev as [Hev|Hev].
      * etrans; [by apply Hbound|done].
      * apply list_elem_of_singleton in Hev as ->. apply Qcle_refl.
Qed.

(** X11. The hurricane log is append-only and in the order of time: over
    any run of steps that return, the events recorded before stay a prefix
    of the log, the event times never decrease and none is after the
    current time, and the clock never goes back. *)
Theorem event_log_stays_ordered durations : ∀ e rng e' rng' r,
  unit_draws rng →
  event_log_ordered (state e) →
  run Math_log durations e rng = Returned e' rng' r →
  event_log_ordered (state e') ∧
  hurricanes (state e) `prefix_of` hurricanes (state e') ∧
  time (state e) ≤ time (state e').
Proof.
  induction durations as [|d durations IH]; intros e rng e' rng' r Hu Hlog Hrun.
  - cbn in Hrun. injection Hrun as <- _ _. split_and!; [done..|apply Qcle_refl].
  - cbn in Hrun.
    destruct (step Math_log d e rng) as [e1 rng1 r1| |] eqn:Hstep; [|done..].
    destruct (step_event_log d e rng e1 rng1 r1 Hu Hlog Hstep)
      as (Hlog1 & Hpre1 & Ht1).
    destruct (IH e1 rng1 e' rng' r) as (Hlog2 & Hpre2 & Ht2); [|done..|].
    { intros n. rewrite (step_draws _ _ _ _ _ _ Hstep). apply Hu. }
    split_and!; [done|by etrans|by etrans].
Qed.

End Clock.



(** X14. A shock with a damage fraction in [0, 1] never raises a
    population and never makes one negative: every population after the
    shock is between [0] and what it was. *)
Theorem shock_never_raises D thresholds i0 pops extinct :
  0 ≤ D → D ≤ 1 →
  Forall (λ pop, 0 ≤ pop) pops →
  Forall2 (λ pop pop', 0 ≤ pop' ∧ pop' ≤ pop) pops
    (applyDamage D thresholds i0 pops extinct).1.
Proof.
  intros HD0 HD1 Hpos. apply Forall2_same_length_lookup.
  split; [by rewrite applyDamage_length|].
  intros i pop pop' Hi Hi'.
  rewrite (applyDamage_lookup D thresholds pops i0 extinct i pop Hi) in Hi'.
  assert (0 ≤ pop) as Hpop.
  { rewrite Forall_forall in Hpos. apply Hpos. by eapply list_elem_of_lookup_2. }
  destruct (belowThreshold _ _ _); injection Hi' as <-.
  - split; [apply Qcle_refl|done].
  - split; qc_nra.
Qed.

Lemma drawLoop_elem rand : ∀ categories cumProb cat,
  drawLoop rand cumProb categories = Some cat → cat ∈ categories.
Proof.
  induction categories as [|c rest IH]; intros cumProb cat; [done|].
  cbn. case_bool_decide.
  - intros [= ->]. by left.
  - intros Hrest. right. by eapply IH.
Qed.

(** X15. Whatever the draw, the category drawn from a nonempty list is
    one of the list: its name and its damage belong to one entry. *)
Theorem drawn_category_is_listed rand categories :
  categories ≠ [] →
  ∃ cat, cat ∈ categories ∧
    drawHurricaneDamage_at rand categories = Ok (cat_name cat, cat_damage cat).
Proof.
  intros Hne. unfold drawHurricaneDamage_at.
  destruct (drawLoop rand 0 categories) as [cat|] eqn:Hloop.
  - exists cat. split; [by eapply drawLoop_elem|done].
  - destruct (last categories) as [cat|] eqn:Hlast.
    + exists cat. split; [|done].
      rewrite last_lookup in Hlast. by eapply list_elem_of_lookup_2.
    + by apply last_None in Hlast.
Qed.

End EngineMore.

Section Extinction.

Import Ode Ecology Engine Invariants.

Variable Math_log : Qc → Qc.

Implicit Types (e : SimulationEngine EcologyParams).

Lemma step_extinct_are_gone e duration rng e' rng' r :
  odeFunction e = ecoDynamicsTypeII →
  extinct_are_gone (state e) →
  step Math_log duration e rng = Returned e' rng' r →
  extinct_are_gone (state e') ∧ odeFunction e' = ecoDynamicsTypeII.
Proof.
  intros Hf Hgone Hstep. apply step_inv in Hstep
    as [(_ & _ & st & Hst & ->)|(tH & st & c & D & _ & _ & Hst & _ & ->)];
    destruct (integrate_frame e _ st Hst) as [_ Hext];
    (split; [|done]); intros i Hi; cbn in *.
  - rewrite Hext in Hi. eapply integrate_absorbing; [done| |exact Hst].
    by apply Hgone.
  - destruct (applyHurricane_spec e st tH c D) as (_ & _ & Hpops' & Hext' & _).
    rewrite Hpops'. rewrite Hext' in Hi.
    apply applyDamage_extinct in Hi as [Hi|(k & pop & -> & Hk & Hbelow)].
    + apply applyDamage_absorbing.
      eapply integrate_absorbing; [done| |exact Hst].
      apply Hgone. by rewrite <-Hext.
    + rewrite (applyDamage_lookup _ _ _ 0 _ k pop Hk). cbn in *.
      by rewrite Hbelow.
Qed.

(** X16. An extinct species is gone: for an engine as constructed or
    reset that integrates the Lotka-Volterra field, after any run of steps
    every index of the extinct set is an index of the population vector
    and its population is exactly [0]. *)
Theorem extinct_species_are_gone durations : ∀ e rng e' rng' r,
  odeFunction e = ecoDynamicsTypeII →
  extinct_are_gone (state e) →
  run Math_log durations e rng = Returned e' rng' r →
  extinct_are_gone (state e').
Proof.
  induction durations as [|d durations IH]; intros e rng e' rng' r Hf Hgone Hrun.
  - cbn in Hrun. by injection Hrun as <- _ _.
  - cbn in Hrun.
    destruct (step Math_log d e rng) as [e1 rng1 r1| |] eqn:Hstep; [|done..].
    destruct (step_extinct_are_gone e d rng e1 rng1 r1 Hf Hgone Hstep)
      as [Hgone1 Hf1].
    by eapply IH.
Qed.

End Extinction.

(** ** Loops over matrices *)

Section Loops.

Lemma for_range_S {St : Type} n (body : nat → St → St) s :
  for_range (S n) body s = body n (for_range n body s).
Proof. unfold for_range. by rewrite seq_S, foldl_app. Qed.

(** What holds before a loop and is kept by every iteration holds after
    it; [Inv k] is what holds once the indices below [k] are done. *)
Lemma for_range_ind {St : Type} (Inv : nat → St → Prop) n
    (body : nat → St → St) s :
  Inv 0%nat s →
  (∀ i s, (i < n)%nat → Inv i s → Inv (S i) (body i s)) →
  Inv n (for_range n body s).
Proof.
  intros H0 Hstep. induction n as [|n IH]; [done|].
  rewrite for_range_S. apply Hstep; [lia|]. apply IH.
  intros i s' Hi. apply Hstep. lia.
Qed.

Lemma square_zeros n : square n (zeros n n).
Proof.
  unfold square, zeros. split; [by rewrite length_replicate|].
  apply Forall_replicate. by rewrite length_replicate.
Qed.

Lemma cell_zeros n i j : (i < n)%nat → (j < n)%nat → cell (zeros n n) i j = Some 0.
Proof.
  intros Hi Hj. unfold cell, zeros.
  rewrite lookup_replicate_2 by done. cbn. by rewrite lookup_replicate_2.
Qed.

Lemma square_alter n (g : list Qc → list Qc) i (Y : matrix) :
  (∀ row, length (g row) = length row) → square n Y → square n (alter g i Y).
Proof.
  intros Hg [Hlen Hrows]. split; [by rewrite length_alter|].
  rewrite Forall_lookup in Hrows |- *. intros k row Hk.
  destruct (decide (k = i)) as [->|Hne].
  - rewrite list_lookup_alter_eq in Hk.
    destruct (Y !! i) as [row0|] eqn:Hrow0; [|done].
    cbn in Hk. injection Hk as <-. rewrite Hg. by eapply Hrows.
  - rewrite list_lookup_alter_ne in Hk by congruence. by eapply Hrows.
Qed.

Lemma square_mat_set n i j v Y : square n Y → square n (mat_set i j v Y).
Proof. apply square_alter. intros row. by rewrite length_insert. Qed.

Lemma square_mat_add n i j v Y : square n Y → square n (mat_add i j v Y).
Proof. apply square_alter. intros row. by rewrite length_alter. Qed.

Lemma square_cell n Y i j :
  square n Y → (i < n)%nat → (j < n)%nat → is_Some (cell Y i j).
Proof.
  intros [Hlen Hrows] Hi Hj. unfold cell.
  destruct (lookup_lt_is_Some_2 Y i) as [row Hrow]; [lia|].
  rewrite Hrow. cbn. apply lookup_lt_is_Some_2.
  rewrite Forall_lookup in Hrows. by rewrite (Hrows i row Hrow).
Qed.

Lemma cell_mat_set_eq i j v Y : cell (mat_set i j v Y) i j = (λ _, v) <$> cell Y i j.
Proof.
  unfold cell, mat_set. rewrite list_lookup_alter_eq.
  destruct (Y !! i) as [row|]; [|done]. cbn.
  destruct (row !! j) as [x|] eqn:Hx.
  - rewrite list_lookup_insert_eq; [done|]. by eapply lookup_lt_Some.
  - cbn. apply lookup_ge_None. rewrite length_insert. by apply lookup_ge_None.
Qed.

Lemma cell_mat_set_ne i j v Y i' j' :
  (i', j') ≠ (i, j) → cell (mat_set i j v Y) i' j' = cell Y i' j'.
Proof.
  intros Hne. unfold cell, mat_set.
  destruct (decide (i' = i)) as [->|Hi].
  - rewrite list_lookup_alter_eq. destruct (Y !! i) as [row|]; [|done]. cbn.
    rewrite list_lookup_insert_ne; [done|]. congruence.
  - rewrite list_lookup_alter_ne; [done|congruence].
Qed.

Lemma cell_mat_add_eq i j v Y :
  cell (mat_add i j v Y) i j = (λ x, x + v) <$> cell Y i j.
Proof.
  unfold cell, mat_add. rewrite list_lookup_alter_eq.
  destruct (Y !! i) as [row|]; [|done]. cbn. by rewrite list_lookup_alter_eq.
Qed.

Lemma cell_mat_add_ne i j v Y i' j' :
  (i', j') ≠ (i, j) → cell (mat_add i j v Y) i' j' = cell Y i' j'.
Proof.
  intros Hne. unfold cell, mat_add.
  destruct (decide (i' = i)) as [->|Hi].
  - rewrite list_lookup_alter_eq. destruct (Y !! i) as [row|]; [|done]. cbn.
    rewrite list_lookup_alter_ne; [done|]. congruence.
  - rewrite list_lookup_alter_ne; [done|congruence].
Qed.

Lemma square_split n Y :
  square n Y → square n (split_mut Y) ∧ square n (split_comp Y).
Proof.
  intros [Hlen Hrows]. unfold split_mut, split_comp, square.
  rewrite !length_map. split_and!; try done;
    apply Forall_map; (eapply Forall_impl; [exact Hrows|]);
    intros row Hrow; cbn; by rewrite length_map.
Qed.

End Loops.

(** ** The synthetic ring *)

Section Ring.

Import Ecology.

Lemma ring_value_sym n m c i j : ring_value n m c i j = ring_value n m c j i.
Proof.
  unfold ring_value. destruct (decide (i = j)) as [->|Hne]; [done|].
  rewrite (bool_decide_eq_false_2 (i = j)), (bool_decide_eq_false_2 (j = i))
    by congruence.
  apply (f_equal (λ b : bool, if b then m else c)).
  apply bool_decide_ext. tauto.
Qed.

Lemma ring_cell_spec n m c i j Y :
  square n Y → cell Y i j = Some 0 →
  square n (ring_cell n m c i j Y) ∧
  cell (ring_cell n m c i j Y) i j = Some (ring_value n m c i j) ∧
  ∀ i' j', (i', j') ≠ (i, j) →
    cell (ring_cell n m c i j Y) i' j' = cell Y i' j'.
Proof.
  intros Hsq Hcell. unfold ring_cell, ring_value.
  destruct (decide (i = j)) as [->|Hij].
  - rewrite bool_decide_eq_false_2 by (by intros []).
    rewrite bool_decide_eq_true_2 by done. by split_and!.
  - rewrite (bool_decide_eq_true_2 (i ≠ j)) by done.
    rewrite (bool_decide_eq_false_2 (i = j)) by done.
    case_bool_decide; (split_and!;
      [by apply square_mat_set
      |by rewrite cell_mat_set_eq, Hcell
      |intros i' j' Hne; by apply cell_mat_set_ne]).
Qed.

Lemma ring_row n m c i Y :
  (i < n)%nat → ring_cells_done n m c i 0 Y →
  ring_cells_done n m c i n
    (for_range n (λ j Y, ring_cell n m c i j Y) Y).
Proof.
  intros Hi H0.
  apply (for_range_ind (ring_cells_done n m c i)); [done|].
  clear Y H0. intros l Y Hl [Hsq Hinv].
  destruct (ring_cell_spec n m c i l Y Hsq) as (Hsq' & Hnew & Hold).
  { apply (Hinv i l); [done..|lia]. }
  split; [done|]. intros i' j' Hi' Hj'.
  destruct (decide ((i', j') = (i, l))) as [[= -> ->]|Hne].
  - split; [done|]. intros []. lia.
  - rewrite (Hold i' j' Hne).
    destruct (Hinv i' j' Hi' Hj') as [Hdone Hrest].
    assert (¬ (i' = i ∧ j' = l)) by (intros [-> ->]; by apply Hne).
    split; intros ?; [apply Hdone|apply Hrest]; lia.
Qed.

Lemma ring_rows n m c :
  ring_cells_done n m c n 0
    (for_range n (λ i Y, for_range n (λ j Y, ring_cell n m c i j Y) Y)
       (zeros n n)).
Proof.
  apply (for_range_ind (λ k, ring_cells_done n m c k 0)).
  - split; [apply square_zeros|]. intros i j Hi Hj.
    split; [lia|]. intros _. by apply cell_zeros.
  - intros i Y Hi HY.
    destruct (ring_row n m c i Y Hi HY) as [Hsq Hinv].
    split; [done|]. intros i' j' Hi' Hj'.
    destruct (Hinv i' j' Hi' Hj') as [Hdone Hrest].
    split; intros ?; [apply Hdone|apply Hrest]; lia.
Qed.

Lemma ring_matrices (config : ModelConfig) :
  let n := nSpecies config in
  square n (generateInteractionMatrices config).1 ∧
  square n (generateInteractionMatrices config).2 ∧
  ∀ i j, (i < n)%nat → (j < n)%nat →
    let v := ring_value n (mutualisticStrength config)
               (competitionStrength config) i j in
    cell (generateInteractionMatrices config).1 i j = Some (Math_max 0 v) ∧
    cell (generateInteractionMatrices config).2 i j = Some (Math_min 0 v).
Proof.
  intros n. unfold generateInteractionMatrices. cbn [fst snd]. fold n.
  destruct (ring_rows n (mutualisticStrength config)
              (competitionStrength config)) as [Hsq Hinv].
  destruct (square_split _ _ Hsq) as [Hm Hc].
  split_and!; [done..|]. intros i j Hi Hj.
  unfold split_mut, split_comp. rewrite !cell_map.
  destruct (Hinv i j Hi Hj) as [Hdone _]. rewrite Hdone by lia. done.
Qed.

Lemma cell_outside n Y i j :
  square n Y → ¬ (i < n ∧ j < n)%nat → cell Y i j = None.
Proof.
  intros [Hlen Hrows] Hout. unfold cell.
  destruct (Y !! i) as [row|] eqn:Hrow; [|done]. cbn.
  apply lookup_ge_None_2.
  rewrite Forall_lookup in Hrows. rewrite (Hrows i row Hrow).
  apply lookup_lt_Some in Hrow. lia.
Qed.

(** X17. [generateInteractionMatrices] returns two [n] by [n] matrices,
    [n] the configured number of species.  Cell [(i, j)] of the first is
    the positive part, and of the second the negative part, of the ring's
    value there: zero on the diagonal, the mutualistic strength where [i]
    and [j] are neighbours on the ring, the competition strength
    elsewhere. *)
Theorem generateInteractionMatrices_ring (config : ModelConfig) i j :
  let n := nSpecies config in
  let v := ring_value n (mutualisticStrength config)
             (competitionStrength config) i j in
  (i < n)%nat → (j < n)%nat →
  square n (generateInteractionMatrices config).1 ∧
  square n (generateInteractionMatrices config).2 ∧
  cell (generateInteractionMatrices config).1 i j = Some (Math_max 0 v) ∧
  cell (generateInteractionMatrices config).2 i j = Some (Math_min 0 v).
Proof.
  intros n v Hi Hj.
  destruct (ring_matrices config) as (Hm & Hc & Hcells).
  destruct (Hcells i j Hi Hj) as [H1 H2]. by split_and!.
Qed.

(** X18. The matrices of the ring are symmetric: the cell [(i, j)] equals
    the cell [(j, i)], in the mutualism and in the competition matrix. *)
Theorem generateInteractionMatrices_symmetric (config : ModelConfig) i j :
  cell (generateInteractionMatrices config).1 i j =
    cell (generateInteractionMatrices config).1 j i ∧
  cell (generateInteractionMatrices config).2 i j =
    cell (generateInteractionMatrices config).2 j i.
Proof.
  destruct (ring_matrices config) as (Hm & Hc & Hcells).
  set (n := nSpecies config) in *.
  destruct (decide (i < n ∧ j < n)%nat) as [[Hi Hj]|Hout].
  - destruct (Hcells i j Hi Hj) as [-> ->].
    destruct (Hcells j i Hj Hi) as [-> ->].
    by rewrite ring_value_sym.
  - rewrite !(cell_outside n) by (done || lia). done.
Qed.

End Ring.

(** ** The saturating response *)

Section Response.

Import Ecology.


End Response.

(** ** The random initial values *)

Section SetupFacts.

Import Ecology Engine Setup.

(** The array holds the images of the next [n] draws, in order, and the
    source has advanced by [n]. *)
Lemma random_array_spec (g : Qc → Qc) n rng :
  random_array g n rng =
    (map (λ k, g (draws rng (drawn rng + k)%nat)) (seq 0 n),
     mkRandom (draws rng) (drawn rng + n)).
Proof.
  revert rng. induction n as [|n IH]; intros rng.
  - cbn. rewrite Nat.add_0_r. by destruct rng.
  - cbn [random_array Math_random]. rewrite IH. cbn [advance draws drawn].
    f_equal.
    + cbn [seq map]. rewrite Nat.add_0_r. f_equal.
      rewrite <- seq_shift, map_map. apply map_ext. intros k.
      by replace (S (drawn rng) + k)%nat with (drawn rng + S k)%nat by lia.
    + f_equal. lia.
Qed.



(** X21. [createEcologyParams] returns growth rates, half-saturation
    constants and initial populations of the configured number [n] of
    species.  It draws the growth rates first and the populations after
    them: species [i] gets its growth rate from draw [i] and its
    population from draw [n + i], and [2 n] draws are used.  Without a
    custom network the two matrices are [n] by [n]. *)
Theorem createEcologyParams_draws (config : ModelConfig) (rng : Random) :
  let n := nSpecies config in
  let '(params, initialPopulation, rng') := createEcologyParams config rng in
  length (r params) = n ∧ length (h params) = n ∧
  length initialPopulation = n ∧
  drawn rng' = (drawn rng + 2 * n)%nat ∧
  (∀ i, (i < n)%nat →
     r params !! i =
       Some (num 1 / num 10 + draws rng (drawn rng + i)%nat * (num 4 / num 10)) ∧
     h params !! i = Some (halfSaturation config) ∧
     initialPopulation !! i =
       Some (num 3 / num 10
             + draws rng (drawn rng + n + i)%nat * (num 7 / num 10))) ∧
  (customNetwork config = None →
     square n (Y_mut params) ∧ square n (Y_comp params)).
Proof.
  intros n. unfold createEcologyParams, initializeGrowthRates,
    initializePopulations.
  rewrite !random_array_spec. cbn [draws drawn]. fold n.
  destruct (match customNetwork config with
            | Some custom => custom
            | None => generateInteractionMatrices config
            end) as [Ym Yc] eqn:HY.
  cbn [r h Y_mut Y_comp].
  split_and!.
  - by rewrite length_map, length_seq.
  - by rewrite length_replicate.
  - by rewrite length_map, length_seq.
  - cbn [drawn]. lia.
  - intros i Hi. split_and!.
    + rewrite list_lookup_fmap, lookup_seq_lt by done. done.
    + by apply lookup_replicate_2.
    + rewrite list_lookup_fmap, lookup_seq_lt by done. done.
  - intros Hnone. rewrite Hnone in HY.
    destruct (ring_matrices config) as (Hm & Hc & _).
    rewrite HY in Hm, Hc. done.
Qed.

End SetupFacts.

(** ** The bipartite builder *)

Section BuilderFacts.

Import Network Stats.

Variable Math_sqrt : Qc → Qc.

Lemma for_range_preserves {St : Type} (Q : St → Prop) n
    (body : nat → St → St) s :
  Q s → (∀ i s, (i < n)%nat → Q s → Q (body i s)) → Q (for_range n body s).
Proof. intros. by apply (for_range_ind (λ _, Q)). Qed.

Lemma pointwise_zeros R n m : (∀ i j, R i j 0) → pointwise R (zeros n m).
Proof.
  intros HR i j x. unfold cell, zeros. intros Hx.
  destruct (replicate n (replicate m 0) !! i) as [row|] eqn:Hrow; [|done].
  apply lookup_replicate in Hrow as [-> _]. cbn in Hx.
  apply lookup_replicate in Hx as [-> _]. apply HR.
Qed.

Lemma pointwise_mat_add R i j v Y :
  (∀ x, R i j x → R i j (x + v)) →
  pointwise R Y → pointwise R (mat_add i j v Y).
Proof.
  intros Hadd HY i' j' x.
  destruct (decide ((i', j') = (i, j))) as [[= -> ->]|Hne].
  - rewrite cell_mat_add_eq.
    destruct (cell Y i j) as [x0|] eqn:Hx0; [|done].
    intros [= <-]. by apply Hadd, HY.
  - rewrite cell_mat_add_ne by done. apply HY.
Qed.

Lemma competition_pointwise R n off c inB inS db ds Y :
  (∀ i j x, (i < n)%nat → (j < n)%nat → i ≠ j →
     R (off + i)%nat (off + j)%nat x →
     R (off + i)%nat (off + j)%nat (x + c / db) ∧
     R (off + i)%nat (off + j)%nat (x + c / ds)) →
  pointwise R Y → pointwise R (competition n off c inB inS db ds Y).
Proof.
  intros Hadd HY. unfold competition.
  apply for_range_preserves; [done|]. intros j Y1 Hj HY1.
  apply for_range_preserves; [done|]. intros i Y2 Hi HY2.
  case_bool_decide as Hij; [|done].
  destruct (flag inB i && flag inB j), (flag inS i && flag inS j);
    repeat (apply pointwise_mat_add;
            [intros x Hx; by destruct (Hadd i j x Hi Hj Hij Hx)|]);
    done.
Qed.

Lemma competition_square Nt n off c inB inS db ds Y :
  square Nt Y → square Nt (competition n off c inB inS db ds Y).
Proof.
  intros HY. unfold competition.
  apply for_range_preserves; [done|]. intros j Y1 Hj HY1.
  apply for_range_preserves; [done|]. intros i Y2 Hi HY2.
  case_bool_decide as Hij; [|done].
  destruct (flag inB i && flag inB j), (flag inS i && flag inS j);
    repeat apply square_mat_add; done.
Qed.

Lemma mutualism_pointwise R padded Np Na s Y :
  (∀ i j b w x, (i < Np)%nat → (j < Na)%nat → 0 < b → 0 < w →
     (R i (Np + j)%nat x → R i (Np + j)%nat (x + s * b / Math_sqrt w)) ∧
     (R (Np + j)%nat i x → R (Np + j)%nat i (x + s * b / Math_sqrt w))) →
  pointwise R Y → pointwise R (mutualism Math_sqrt padded Np Na s Y).
Proof.
  intros Hadd HY. unfold mutualism. destruct padded as [mx|]; [|done].
  cbv zeta.
  apply for_range_preserves; [done|]. intros i Y1 Hi HY1.
  apply for_range_preserves; [done|]. intros j Y2 Hj HY2.
  case_bool_decide as Hb; [|done].
  repeat case_bool_decide;
    repeat (apply pointwise_mat_add;
            [intros x Hx; by apply (Hadd i j _ _ x Hi Hj Hb)|]);
    done.
Qed.

Lemma mutualism_square Nt padded Np Na s Y :
  square Nt Y → square Nt (mutualism Math_sqrt padded Np Na s Y).
Proof.
  intros HY. unfold mutualism. destruct padded as [mx|]; [|done].
  cbv zeta.
  apply for_range_preserves; [done|]. intros i Y1 Hi HY1.
  apply for_range_preserves; [done|]. intros j Y2 Hj HY2.
  case_bool_decide as Hb; [|done].
  repeat case_bool_decide; repeat apply square_mat_add; done.
Qed.

Lemma grow_dims_Ok mx dims dims' :
  grow_dims mx dims = Ok dims' →
  mx ≠ Some [] ∧
  dims' = (dims.1 `max` n_rows mx, dims.2 `max` n_cols mx)%nat.
Proof.
  destruct mx as [[|row0 rows]|]; cbn; [done| |].
  - intros [= <-]. done.
  - intros [= <-]. split; [done|]. destruct dims as [a b]. cbn.
    f_equal; lia.
Qed.

Lemma grow_dims_Thrown mx dims msg :
  grow_dims mx dims = Thrown msg → mx = Some [].
Proof. by destruct mx as [[|row0 rows]|]. Qed.

Lemma grow_dims_total mx dims :
  mx ≠ Some [] →
  grow_dims mx dims = Ok (dims.1 `max` n_rows mx, dims.2 `max` n_cols mx)%nat.
Proof.
  destruct mx as [[|row0 rows]|]; cbn; [done|done|].
  intros _. destruct dims as [a b]. cbn. do 2 f_equal; lia.
Qed.

(** What a successful build returns: the split of one signed matrix [Y]
    of the full dimension, every cell of which has a property that zero
    has and that the additions of the competition and mutualism loops
    keep. *)
Lemma buildInteractionMatrix_Ok R network params out :
  let Np := (n_rows (net_B network) `max` n_rows (net_S network))%nat in
  let Na := (n_cols (net_B network) `max` n_cols (net_S network))%nat in
  (∀ i j, R i j 0) →
  (∀ i j k x, i ≠ j → same_guild Np i j → R i j x →
     R i j (x + par_c params / comp_denom k)) →
  (∀ i j s b w x, s = par_m params ∨ s = par_d params → 0 < b → 0 < w →
     i ≠ j → ¬ same_guild Np i j → R i j x →
     R i j (x + s * b / Math_sqrt w)) →
  buildInteractionMatrix Math_sqrt network params = Ok out →
  ∃ Y, out = mkInteraction (split_mut Y) (split_comp Y) (Np + Na) ∧
       square (Np + Na) Y ∧ pointwise R Y.
Proof.
  intros Np Na H0 Hcomp Hmut. unfold buildInteractionMatrix.
  set (B := net_B network) in *. set (S := net_S network) in *.
  assert (∀ k : Result Interaction,
    match B, S with
    | None, None =>
        Thrown "At least one biadjacency matrix (B or S) must be provided"
    | _, _ => k
    end = Ok out → k = Ok out) as Hwrap.
  { intros k. by destruct B, S. }
  intros Hrun. apply Hwrap in Hrun. clear Hwrap. revert Hrun.
  destruct (grow_dims B (0%nat, 0%nat)) as [dimsB|] eqn:HB; [|done].
  destruct (grow_dims S dimsB) as [[Np' Na']|] eqn:HS; [|done].
  apply grow_dims_Ok in HB as [_ ->]. apply grow_dims_Ok in HS as [_ HS].
  cbn [fst snd] in HS. injection HS as -> ->.
  fold Np Na.
  destruct (active (padMatrix B Np Na) Np Na) as [pB aB].
  destruct (active (padMatrix S Np Na) Np Na) as [pS aS].
  intros [= <-]. eexists. split; [reflexivity|].
  assert (∀ i j, (i < Np)%nat → (j < Np)%nat →
            same_guild Np (0 + i) (0 + j)) as Hplants.
  { intros i j Hi Hj. unfold same_guild. cbn. tauto. }
  assert (∀ i j, same_guild Np (Np + i) (Np + j)) as Hanimals.
  { intros i j. unfold same_guild. lia. }
  assert (∀ i j, (i < Np)%nat →
            ¬ same_guild Np i (Np + j) ∧ ¬ same_guild Np (Np + j) i)
    as Hcross.
  { intros i j Hi. unfold same_guild. lia. }
  split.
  - do 2 apply mutualism_square. do 2 apply competition_square.
    apply square_zeros.
  - apply mutualism_pointwise.
    { intros i j b w x Hi Hj Hb Hw. destruct (Hcross i j Hi).
      split; apply Hmut; auto; lia. }
    apply mutualism_pointwise.
    { intros i j b w x Hi Hj Hb Hw. destruct (Hcross i j Hi).
      split; apply Hmut; auto; lia. }
    apply competition_pointwise.
    { intros i j x Hi Hj Hij HR.
      split; apply Hcomp; auto; lia. }
    apply competition_pointwise.
    { intros i j x Hi Hj Hij HR.
      split; apply Hcomp; auto; lia. }
    by apply pointwise_zeros.
Qed.


Lemma buildInteractionMatrix_raises network params :
  (∃ msg, buildInteractionMatrix Math_sqrt network params = Thrown msg) ↔
  (net_B network = None ∧ net_S network = None) ∨
  net_B network = Some [] ∨ net_S network = Some [].
Proof.
  unfold buildInteractionMatrix.
  set (B := net_B network). set (S := net_S network).
  destruct (grow_dims B (0%nat, 0%nat)) as [dimsB|msgB] eqn:HB.
  - destruct (grow_dims S dimsB) as [[Np Na]|msgS] eqn:HS.
    + apply grow_dims_Ok in HB as [HB _]. apply grow_dims_Ok in HS as [HS _].
      destruct (active (padMatrix B Np Na) Np Na) as [pB aB].
      destruct (active (padMatrix S Np Na) Np Na) as [pS aS].
      split.
      * intros [msg Hmsg]. left. destruct B, S; done.
      * intros [[-> ->]|[?|?]]; [by eexists|done..].
    + apply grow_dims_Thrown in HS. split; [auto|].
      intros _. destruct B, S; try done; by eexists.
  - apply grow_dims_Thrown in HB. split; [auto|].
    intros _. destruct B, S; try done; by eexists.
Qed.

(** X22. [buildInteractionMatrix] throws in exactly three cases: neither
    matrix is supplied, [B] is an empty array, [S] is an empty array. *)
Theorem buildInteractionMatrix_throws_iff network params :
  (∃ msg, buildInteractionMatrix Math_sqrt network params = Thrown msg) ↔
  (net_B network = None ∧ net_S network = None) ∨
  net_B network = Some [] ∨ net_S network = Some [].
Proof. apply buildInteractionMatrix_raises. Qed.

(** X23. A successful build is over [Np + Na] species, [Np] the larger
    number of rows and [Na] the larger number of columns of the supplied
    matrices, and both returned matrices are square of that dimension. *)
Theorem buildInteractionMatrix_shape network params out :
  buildInteractionMatrix Math_sqrt network params = Ok out →
  out_nSpecies out =
    (n_rows (net_B network) `max` n_rows (net_S network)
     + n_cols (net_B network) `max` n_cols (net_S network))%nat ∧
  square (out_nSpecies out) (out_Y_mut out) ∧
  square (out_nSpecies out) (out_Y_comp out).
Proof.
  intros Hbuild.
  destruct (buildInteractionMatrix_Ok (λ _ _ _, True) network params out)
    as (Y & -> & Hsq & _); [done..|].
  cbn [out_nSpecies out_Y_mut out_Y_comp].
  destruct (square_split _ _ Hsq). done.
Qed.

(** X24. No species acts on itself: the diagonals of both matrices of a
    successful build are zero. *)
Theorem buildInteractionMatrix_diagonal network params out k :
  buildInteractionMatrix Math_sqrt network params = Ok out →
  (k < out_nSpecies out)%nat →
  cell (out_Y_mut out) k k = Some 0 ∧ cell (out_Y_comp out) k k = Some 0.
Proof.
  intros Hbuild.
  destruct (buildInteractionMatrix_Ok hollow network params out)
    as (Y & -> & Hsq & Hpt); [| | |done|].
  - by intros i j _.
  - intros i j n x Hij _ _ ?. done.
  - intros i j s b w x _ _ _ Hij _ _ ?. done.
  - cbn [out_nSpecies out_Y_mut out_Y_comp]. intros Hk.
    unfold split_mut, split_comp. rewrite !cell_map.
    destruct (square_cell _ Y k k Hsq Hk Hk) as [x Hx].
    rewrite Hx. rewrite (Hpt k k x Hx eq_refl). cbn. split; f_equal; by_compute.
Qed.


(** X26. [getNetworkStats] and [buildInteractionMatrix] read the same
    dimensions: when the build succeeds the statistics are returned and
    their total is the number of species of the build, and when the
    statistics are returned either the build succeeds or no matrix was
    supplied and every statistic is zero. *)
Theorem getNetworkStats_agrees network params :
  (∀ out, buildInteractionMatrix Math_sqrt network params = Ok out →
     ∃ stats, getNetworkStats network = Ok stats ∧
              nTotal stats = out_nSpecies out ∧
              nTotal stats = (nPlants stats + nAnimals stats)%nat) ∧
  (∀ stats, getNetworkStats network = Ok stats →
     (∃ out, buildInteractionMatrix Math_sqrt network params = Ok out) ∨
     (net_B network = None ∧ net_S network = None ∧
      stats = mkNetworkStats 0 0 0 0 0)).
Proof.
  split.
  - intros out Hbuild.
    destruct (buildInteractionMatrix_Ok (λ _ _ _, True) network params out)
      as (Y & -> & _); [done..|].
    assert (¬ ∃ msg, buildInteractionMatrix Math_sqrt network params
                     = Thrown msg) as Hok.
    { intros [msg Hmsg]. by rewrite Hbuild in Hmsg. }
    rewrite buildInteractionMatrix_raises in Hok.
    unfold getNetworkStats.
    rewrite (grow_dims_total (net_B network)) by tauto.
    rewrite (grow_dims_total (net_S network)) by tauto.
    cbn [fst snd]. eexists. split; [reflexivity|]. cbn. done.
  - intros stats. unfold getNetworkStats.
    destruct (grow_dims (net_B network) (0%nat, 0%nat)) as [dimsB|] eqn:HB;
      [|done].
    destruct (grow_dims (net_S network) dimsB) as [[Np Na]|] eqn:HS; [|done].
    destruct (grow_dims_Ok _ _ _ HB) as [HB' ->].
    destruct (grow_dims_Ok _ _ _ HS) as [HS' [= -> ->]].
    intros [= <-].
    destruct (net_B network) as [B|] eqn:EB, (net_S network) as [S|] eqn:ES;
      [left..|by right];
      (destruct (buildInteractionMatrix Math_sqrt network params)
         as [out|msg] eqn:Hout; [by exists out|]);
      (assert (∃ msg, buildInteractionMatrix Math_sqrt network params
                      = Thrown msg) as Hthrow by (by exists msg));
      rewrite buildInteractionMatrix_raises in Hthrow;
      rewrite EB, ES in Hthrow; destruct Hthrow as [[? ?]|[?|?]]; congruence.
Qed.

End BuilderFacts.

(** ** Padding, the default network and the control panel *)

Section Surroundings.

Import Network DefaultNetwork Engine.

(** X27. Padding a rectangular matrix to its own dimensions returns the
    matrix: a network given by one matrix is built from that matrix as it
    is. *)
Theorem padMatrix_own_dimensions (mx : matrix) :
  Forall (λ row, length row = n_cols (Some mx)) mx →
  padMatrix (Some mx) (n_rows (Some mx)) (n_cols (Some mx)) = Some mx.
Proof.
  intros Hrect. unfold padMatrix, n_rows. cbn [from_option].
  set (c := n_cols (Some mx)) in *.
  assert (length (default [] (mx !! 0%nat)) = c) as -> by done.
  f_equal. apply list_eq. intros i.
  change (map ?f ?l) with (f <$> l). rewrite list_lookup_fmap.
  destruct (decide (i < length mx)%nat) as [Hi|Hi].
  - rewrite lookup_seq_lt by done. cbn [fmap option_fmap option_map].
    change (0 + i)%nat with i.
    destruct (lookup_lt_is_Some_2 mx i Hi) as [row Hrow]. rewrite Hrow.
    f_equal. apply list_eq. intros j.
    change (map ?f ?l) with (f <$> l). rewrite list_lookup_fmap.
    rewrite Forall_lookup in Hrect. pose proof (Hrect i row Hrow) as Hlen.
    destruct (decide (j < c)%nat) as [Hj|Hj].
    + rewrite lookup_seq_lt by done. cbn [fmap option_fmap option_map].
      change (0 + j)%nat with j.
      rewrite bool_decide_eq_true_2 by done.
      unfold read2, read. rewrite Hrow. cbn [default from_option id].
      destruct (lookup_lt_is_Some_2 row j) as [x Hx]; [lia|].
      rewrite Hx. reflexivity.
    + rewrite lookup_seq_ge by lia. cbn. symmetry.
      apply lookup_ge_None_2. lia.
  - rewrite lookup_seq_ge by lia. cbn. symmetry.
    apply lookup_ge_None_2. lia.
Qed.

(** X28. [isDefaultNetwork] looks at the dimensions of [B] only: it
    accepts exactly the networks with both matrices supplied whose [B] has
    3 rows, the first of them of 6 entries, whatever the entries and
    whatever [S]; the generated default network is among them. *)
Theorem isDefaultNetwork_dimensions (network : option BipartiteNetwork) :
  (isDefaultNetwork network = true ↔
   ∃ B S, network = Some (mkBipartiteNetwork (Some B) (Some S)) ∧
          length B = 3%nat ∧ length (default [] (B !! 0%nat)) = 6%nat) ∧
  isDefaultNetwork (Some generateDefaultNetwork) = true.
Proof.
  split; [|done].
  destruct network as [[[B|] [S0|]]|]; cbn.
  - repeat case_bool_decide; split; try done;
      try (intros (B' & S' & [= <- <-] & H3 & H6); lia).
    intros _. exists B, S0. split; [done|]. split; lia.
  - split; [done|]. by intros (B' & S' & [=] & _).
  - split; [done|]. by intros (B' & S' & [=] & _).
  - split; [done|]. by intros (B' & S' & [=] & _).
  - split; [done|]. by intros (B' & S' & [=] & _).
Qed.



End Surroundings.

(** ** The further properties at concrete inputs *)

Section MoreEvaluations.

Import Ode Engine Inputs Invariants.

Lemma solveODE_empty_interval_witness :
  solveODE decay [1] 1 0 (frac 1 2) tt = Some [mkSample 1 [1]].
Proof. apply (solveODE_empty_interval decay [1] 1 0 (frac 1 2) tt). by_compute. Defined.

Lemma solveODE_nonpositive_step_diverges_witness :
  solveODE decay [1] 0 1 0 tt = None.
Proof.
  destruct (solveODE_nonpositive_step_diverges decay [1] 0 1 0 tt) as [H _].
  - by_compute.
  - by_compute.
  - exact H.
Defined.


Lemma rk4Step_equilibrium_witness :
  rk4Step Ecology.ecoDynamicsTypeII 0 [0; 0; 0; 0] (frac 1 2) ring4_params
  = [0; 0; 0; 0].
Proof.
  apply (rk4Step_equilibrium Ecology.ecoDynamicsTypeII 0 [0; 0; 0; 0]
           (frac 1 2) ring4_params).
  intros t'. reflexivity.
Defined.

Lemma extinct_set_grows_witness :
  let e0 := island 1 (frac 995 1000) in
  match run log_tangent [1; 1] e0 (constant_draws 0) with
  | Returned e' _ _ => extinctSpecies (state e0) ⊆ extinctSpecies (state e')
  | _ => False
  end.
Proof.
  intros e0.
  destruct (run log_tangent [1; 1] e0 (constant_draws 0))
    as [e' rng' r|e' rng' msg|] eqn:Hrun.
  - exact (extinct_set_grows log_tangent [1; 1] e0 (constant_draws 0)
             e' rng' r Hrun).
  - vm_compute in Hrun. discriminate.
  - vm_compute in Hrun. discriminate.
Defined.

Lemma dimension_is_kept_witness :
  let e0 := island 1 (frac 1 2) in
  match run log_tangent [1; 1] e0 (constant_draws (frac 1 2)) with
  | Returned e' _ _ => dimension 2 (state e')
  | _ => False
  end.
Proof.
  intros e0.
  destruct (run log_tangent [1; 1] e0 (constant_draws (frac 1 2)))
    as [e' rng' r|e' rng' msg|] eqn:Hrun.
  - exact (dimension_is_kept log_tangent e0 [1; 1] (constant_draws (frac 1 2))
             e' rng' r eq_refl Hrun).
  - vm_compute in Hrun. discriminate.
  - vm_compute in Hrun. discriminate.
Defined.

Lemma reset_undoes_run_witness :
  let e0 := island 1 (frac 1 2) in
  match run log_tangent [1; 1] e0 (constant_draws (frac 1 2)) with
  | Returned e' _ _ => reset None e' = e0
  | _ => False
  end.
Proof.
  intros e0.
  destruct (run log_tangent [1; 1] e0 (constant_draws (frac 1 2)))
    as [e' rng' r|e' rng' msg|] eqn:Hrun.
  - exact (reset_undoes_run log_tangent e0 [1; 1] (constant_draws (frac 1 2))
             e' rng' r eq_refl Hrun).
  - vm_compute in Hrun. discriminate.
  - vm_compute in Hrun. discriminate.
Defined.

Lemma step_time_witness :
  let e := island 1 (frac 1 2) in
  match step log_tangent 1 e (constant_draws (frac 1 2)) with
  | Returned e' _ (Some eventTime) =>
      time (state e') = eventTime ∧
      time (state e) ≤ eventTime ∧ eventTime ≤ time (state e) + 1
  | Returned e' _ None => time (state e') = time (state e) + 1
  | _ => False
  end.
Proof.
  intros e.
  pose proof (step_time log_tangent log_tangent_nonpos 1 e
                (constant_draws (frac 1 2))) as Hclock.
  destruct (step log_tangent 1 e (constant_draws (frac 1 2)))
    as [e' rng' r|e' rng' msg|] eqn:Hstep.
  - specialize (Hclock e' rng' r
                  (constant_draws_unit (frac 1 2) ltac:(by_compute)
                     ltac:(by_compute)) eq_refl).
    destruct r as [eventTime|]; exact Hclock.
  - vm_compute in Hstep. discriminate.
  - vm_compute in Hstep. discriminate.
Defined.

Lemma fresh_event_log (e : SimulationEngine unit) :
  fresh e → event_log_ordered (state e).
Proof.
  intros Hfresh. rewrite Hfresh. split.
  - intros k a b Ha. by destruct k.
  - intros ev Hev. by apply elem_of_nil in Hev.
Defined.

Lemma event_log_stays_ordered_witness :
  let e0 := island 1 (frac 1 2) in
  match run log_tangent [1; 1] e0 (constant_draws (frac 1 2)) with
  | Returned e' _ _ =>
      event_log_ordered (state e') ∧
      hurricanes (state e0) `prefix_of` hurricanes (state e') ∧
      time (state e0) ≤ time (state e')
  | _ => False
  end.
Proof.
  intros e0.
  destruct (run log_tangent [1; 1] e0 (constant_draws (frac 1 2)))
    as [e' rng' r|e' rng' msg|] eqn:Hrun.
  - exact (event_log_stays_ordered log_tangent log_tangent_nonpos [1; 1] e0
             (constant_draws (frac 1 2)) e' rng' r
             (constant_draws_unit (frac 1 2) ltac:(by_compute)
                ltac:(by_compute))
             (fresh_event_log e0 eq_refl) Hrun).
  - vm_compute in Hrun. discriminate.
  - vm_compute in Hrun. discriminate.
Defined.



Lemma shock_never_raises_witness :
  Forall2 (λ pop pop', 0 ≤ pop' ∧ pop' ≤ pop) [1; frac 1 100]
    (applyDamage (frac 1 2) [frac 1 100; frac 1 100] 0 [1; frac 1 100] ∅).1.
Proof.
  apply (shock_never_raises (frac 1 2)).
  - by_compute.
  - by_compute.
  - repeat constructor; by_compute.
Defined.

Lemma drawn_category_is_listed_witness :
  ∃ cat, cat ∈ two_categories ∧
    drawHurricaneDamage_at (frac 3 2) two_categories
    = Ok (cat_name cat, cat_damage cat).
Proof. apply (drawn_category_is_listed (frac 3 2) two_categories). discriminate. Defined.

Lemma fresh_extinct_are_gone (e : SimulationEngine Ecology.EcologyParams) :
  fresh e → extinct_are_gone (state e).
Proof.
  intros Hfresh. rewrite Hfresh. intros i Hi.
  by apply elem_of_empty in Hi.
Defined.

Lemma extinct_species_are_gone_witness :
  let rng := draws_from 0 (frac 1 2) in
  match run log_tangent [1; 1] ring_storm rng with
  | Returned e' _ _ =>
      (0%nat ∈ extinctSpecies (state e') ∧ 3%nat ∈ extinctSpecies (state e') ∧
       length (hurricanes (state e')) = 2%nat ∧
       time (state e') = frac 1 2) ∧
      extinct_are_gone (state e')
  | _ => False
  end.
Proof.
  intros rng.
  assert (match run log_tangent [1; 1] ring_storm rng with
          | Returned e' _ _ =>
              bool_decide
                (0%nat ∈ extinctSpecies (state e') ∧
                 3%nat ∈ extinctSpecies (state e') ∧
                 length (hurricanes (state e')) = 2%nat ∧
                 time (state e') = frac 1 2)
          | _ => false
          end = true) as Hvalue by (vm_compute; reflexivity).
  destruct (run log_tangent [1; 1] ring_storm rng)
    as [e' rng' r|e' rng' msg|] eqn:Hrun.
  - split; [exact (bool_decide_eq_true_1 _ Hvalue)|].
    exact (extinct_species_are_gone log_tangent [1; 1] ring_storm rng
             e' rng' r eq_refl
             (fresh_extinct_are_gone ring_storm eq_refl) Hrun).
  - discriminate Hvalue.
  - discriminate Hvalue.
Defined.

Lemma generateInteractionMatrices_ring_witness :
  square 4 (Ecology.generateInteractionMatrices ring4).1 ∧
  square 4 (Ecology.generateInteractionMatrices ring4).2 ∧
  cell (Ecology.generateInteractionMatrices ring4).1 0 1 = Some (frac 1 2) ∧
  cell (Ecology.generateInteractionMatrices ring4).2 0 2 = Some (frac (-1) 10).
Proof.
  pose proof (generateInteractionMatrices_ring ring4 0 1) as H1.
  pose proof (generateInteractionMatrices_ring ring4 0 2) as H2.
  cbv zeta in H1, H2.
  destruct H1 as (Hm & Hc & Hmut & _); [cbn; lia..|].
  destruct H2 as (_ & _ & _ & Hcomp); [cbn; lia..|].
  exact (conj Hm (conj Hc (conj Hmut Hcomp))).
Defined.



Lemma buildInteractionMatrix_shape_witness :
  match Network.buildInteractionMatrix sqrt_unit two_pairs two_pairs_params with
  | Ok out =>
      Network.out_nSpecies out = 4%nat ∧
      square (Network.out_nSpecies out) (Network.out_Y_mut out) ∧
      square (Network.out_nSpecies out) (Network.out_Y_comp out)
  | Thrown _ => False
  end.
Proof.
  destruct (Network.buildInteractionMatrix sqrt_unit two_pairs two_pairs_params)
    as [out|msg] eqn:Hout.
  - exact (buildInteractionMatrix_shape sqrt_unit two_pairs two_pairs_params
             out Hout).
  - vm_compute in Hout. discriminate.
Defined.

Lemma buildInteractionMatrix_diagonal_witness :
  match Network.buildInteractionMatrix sqrt_unit two_pairs two_pairs_params with
  | Ok out =>
      cell (Network.out_Y_mut out) 2 2 = Some 0 ∧
      cell (Network.out_Y_comp out) 2 2 = Some 0
  | Thrown _ => False
  end.
Proof.
  destruct (Network.buildInteractionMatrix sqrt_unit two_pairs two_pairs_params)
    as [out|msg] eqn:Hout.
  - apply (buildInteractionMatrix_diagonal sqrt_unit two_pairs two_pairs_params
             out 2 Hout).
    pose proof Hout as Hvalue. vm_compute in Hvalue.
    injection Hvalue as <-. cbn. lia.
  - vm_compute in Hout. discriminate.
Defined.


Lemma padMatrix_own_dimensions_witness :
  Network.padMatrix (Some [[1; 0]; [0; 1]]) 2 2 = Some [[1; 0]; [0; 1]].
Proof.
  apply (padMatrix_own_dimensions [[1; 0]; [0; 1]]).
  repeat constructor.
Defined.

End MoreEvaluations.
